(** * boolean_expression: conditions, flattening and renderers

    A shallow embedding of [boolean_expression.py].

    The file has two models of the condition objects.

    - The top level models conditions as finite trees. This is what a
      program gets that builds every node once with the constructors
      and the operators. The renderers are modelled on trees: they
      never look at the identity of an object, they only call
      [flatten].
    - [Module Heap] models conditions as Python objects: a store of
      objects referred to by identity, whose [components] attribute
      can be reassigned. [Compound.flatten] tracks [id(self)] in its
      [memo] set, so what it does on shared or cyclic structures can
      only be stated there.

    Three theorems relate them. [heap_flatten_refines]: whenever
    [flatten] succeeds on the store, the object it returns unfolds to
    what [flatten] returns for the tree that its argument unfolds to.
    [heap_flatten_tree]: where the store is a tree, [flatten] does on
    the store what it does on that tree. [heap_flatten_idempotent]:
    what [flatten] returns on the store is such a tree, and is
    flattened to an object that unfolds to the same tree. *)

From Stdlib Require Import Ascii.
From stdpp Require Import base gmap sets list strings pretty.

Set Warnings "-clear-no-such-hyp".

(** ** Values of comparisons *)

(** [datetime.date]. *)
Record date := Date { year : nat; month : nat; day : nat }.

(** A naive [datetime.datetime] (no tzinfo). *)
Record datetime := Datetime {
  dt_date : date;
  hour : nat; minute : nat; second : nat; microsecond : nat
}.

(** The value of a comparison is [Any] in the source. The renderers
    only look at a value through [is None], [isinstance], [str],
    [isoformat] and [strftime]; floats, decimals and objects of other
    types are kept opaque and carry what [str] returns for them. *)
Inductive pyvalue :=
  | VNone
  | VBool (b : bool)
  | VInt (n : Z)
  | VFloat (str_ : string)
  | VDecimal (str_ : string)
  | VStr (s : string)
  | VDate (d : date)
  | VDatetime (d : datetime)
  | VExpression (value : string)
  | VOther (type_name str_ : string).

(** [repr(type(value))], the text a [TypeError(type(value))] shows. *)
Definition type_repr (v : pyvalue) : string :=
  "<class '" +:+
  match v with
  | VNone => "NoneType"
  | VBool _ => "bool"
  | VInt _ => "int"
  | VFloat _ => "float"
  | VDecimal _ => "decimal.Decimal"
  | VStr _ => "str"
  | VDate _ => "datetime.date"
  | VDatetime _ => "datetime.datetime"
  | VExpression _ => "boolean_expression.Expression"
  | VOther type_name _ => type_name
  end +:+ "'>".

(** ["%0<width>d" % n]. *)
Definition zero_pad (width n : nat) : string :=
  let digits := pretty (Z.of_nat n) in
  String.concat "" (replicate (width - String.length digits) "0") +:+ digits.

(** [date.isoformat()]: YYYY-MM-DD. *)
Definition date_isoformat (d : date) : string :=
  zero_pad 4 (year d) +:+ "-" +:+ zero_pad 2 (month d) +:+ "-" +:+ zero_pad 2 (day d).

Definition time_isoformat (d : datetime) : string :=
  zero_pad 2 (hour d) +:+ ":" +:+ zero_pad 2 (minute d) +:+ ":" +:+ zero_pad 2 (second d)
  +:+ (if decide (microsecond d = 0) then "" else "." +:+ zero_pad 6 (microsecond d)).

(** [datetime.isoformat(sep)] of a naive datetime. *)
Definition datetime_isoformat (sep : string) (d : datetime) : string :=
  date_isoformat (dt_date d) +:+ sep +:+ time_isoformat d.

(** [value.isoformat()] for the two date types. *)
Definition isoformat (v : pyvalue) : string :=
  match v with
  | VDate d => date_isoformat d
  | VDatetime d => datetime_isoformat "T" d
  | _ => ""
  end.

(** [value.strftime("%Y%m%d%H%M%SZ")]; a date has time 00:00:00.
    (Years are written with four digits, as they are from 1000 on.) *)
Definition strftime_ldap (v : pyvalue) : string :=
  match v with
  | VDate d =>
      zero_pad 4 (year d) +:+ zero_pad 2 (month d) +:+ zero_pad 2 (day d) +:+ "000000Z"
  | VDatetime d =>
      zero_pad 4 (year (dt_date d)) +:+ zero_pad 2 (month (dt_date d))
      +:+ zero_pad 2 (day (dt_date d))
      +:+ zero_pad 2 (hour d) +:+ zero_pad 2 (minute d) +:+ zero_pad 2 (second d) +:+ "Z"
  | _ => ""
  end.

(** [str(value)]. *)
Definition py_str (v : pyvalue) : string :=
  match v with
  | VNone => "None"
  | VBool true => "True"
  | VBool false => "False"
  | VInt n => pretty n
  | VFloat s => s
  | VDecimal s => s
  | VStr s => s
  | VDate d => date_isoformat d
  | VDatetime d => datetime_isoformat " " d
  | VExpression value => value
  | VOther _ s => s
  end.

(** [repr(s)] for a string of digits and the separators of
    [isoformat]: nothing to escape, single quotes around it. *)
Definition repr_plain (s : string) : string := "'" +:+ s +:+ "'".

(** ** Exceptions and results *)

Inductive exn :=
  | ValueError (msg : string)
  | TypeError (msg : string)
  | KeyError (key : string)
  | AttributeError (name : string)
  (** [CircularDependency(item)]; the item is an object of the store
      of [Module Heap], given by its identity. *)
  | CircularDependency (item : nat)
  (** Not a Python exception: a reference to no object of the store,
      which a Python heap never has. *)
  | DanglingReference (item : nat).

(** What a call does: return, raise, or still be running when the
    fuel of the model is used up. *)
Inductive result (A : Type) :=
  | Ok (a : A)
  | Raise (e : exn)
  | OutOfFuel.
Arguments Ok {A} a.
Arguments Raise {A} e.
Arguments OutOfFuel {A}.

#[global] Instance result_ret : MRet result := @Ok.
#[global] Instance result_bind : MBind result := λ A B f m,
  match m with
  | Ok a => f a
  | Raise e => Raise e
  | OutOfFuel => OutOfFuel
  end.

#[global] Instance result_fmap : FMap result := λ A B f m,
  match m with
  | Ok a => Ok (f a)
  | Raise e => Raise e
  | OutOfFuel => OutOfFuel
  end.

#[global] Instance exn_eq_dec : EqDecision exn.
Proof. solve_decision. Defined.

(** ** The node model *)

Module CompoundOperator.
Inductive t := AND | OR | NOT.

#[global] Instance eq_dec : EqDecision t.
Proof. solve_decision. Defined.

(** [CompoundOperator[name]] *)
Definition getitem (name : string) : result t :=
  if decide (name = "AND") then Ok AND
  else if decide (name = "OR") then Ok OR
  else if decide (name = "NOT") then Ok NOT
  else Raise (KeyError name).
End CompoundOperator.

(** The six subclasses of [Comparison]. *)
Module ComparisonType.
Inductive t := EQ | NE | GT | GTE | LT | LTE.

#[global] Instance eq_dec : EqDecision t.
Proof. solve_decision. Defined.
End ComparisonType.

(** The three variants of a condition. [Comparison] carries the
    subclass it was built with. *)
#[warnings="-register-all"]
Inductive Condition :=
  | Expression (value : string)
  | Comparison (cls : ComparisonType.t) (field : string) (value : pyvalue)
  | Compound (operator : CompoundOperator.t) (components : list Condition).

(** Induction on conditions, with the hypothesis for the components
    of a compound. *)

Section Condition_ind.
Variable P : Condition → Prop.
Hypothesis HExpression : ∀ value, P (Expression value).
Hypothesis HComparison : ∀ cls field value, P (Comparison cls field value).
Hypothesis HCompound : ∀ operator comps, Forall P comps → P (Compound operator comps).

Fixpoint Condition_ind' (c : Condition) : P c :=
  match c with
  | Expression value => HExpression value
  | Comparison cls field value => HComparison cls field value
  | Compound operator comps =>
      HCompound operator comps
        ((fix go (l : list Condition) : Forall P l :=
            match l with
            | [] => Forall_nil_2 P
            | item :: l => Forall_cons_2 P item l (Condition_ind' item) (go l)
            end) comps)
  end.
End Condition_ind.

Definition EQ := Comparison ComparisonType.EQ.
Definition NE := Comparison ComparisonType.NE.
Definition GT := Comparison ComparisonType.GT.
Definition GTE := Comparison ComparisonType.GTE.
Definition LT := Comparison ComparisonType.LT.
Definition LTE := Comparison ComparisonType.LTE.

(** [compound.components] *)
Definition components (c : Condition) : list Condition :=
  match c with
  | Compound _ components => components
  | _ => []
  end.

(** [isinstance(item, Compound) and item.operator == operator] *)
Definition same_operator_compound (operator : CompoundOperator.t) (item : Condition) : bool :=
  match item with
  | Compound op _ => bool_decide (op = operator)
  | _ => false
  end.

(** [Compound.__init__]: the operator may be given by name; an empty
    list of components is refused. *)
Definition Compound_init (operator : CompoundOperator.t + string)
    (components : list Condition) : result Condition :=
  operator ← match operator with
             | inl o => Ok o
             | inr name => CompoundOperator.getitem name
             end;
  if decide (length components = 0)
  then Raise (ValueError "Compound() requires at least one condition")
  else Ok (Compound operator components).

(** [EQ(k, v) for (k, v) in fields.items()] *)
Definition fields_items (fields : list (string * pyvalue)) : list Condition :=
  map (λ kv, EQ kv.1 kv.2) fields.

(** [AND] with its positional arguments and its keyword arguments. *)
Definition AND (components : list Condition) (fields : list (string * pyvalue))
    : result Condition :=
  let items := components in
  let items := if decide (fields = []) then items else items ++ fields_items fields in
  Compound_init (inl CompoundOperator.AND) items.

(** [OR] with its positional arguments and its keyword arguments. *)
Definition OR (components : list Condition) (fields : list (string * pyvalue))
    : result Condition :=
  let items := components in
  let items := if decide (fields = []) then items else items ++ fields_items fields in
  Compound_init (inl CompoundOperator.OR) items.

(** The body of [NOT(component=None, /, **fields)]. A condition
    object is always true in a boolean context, so [if component]
    tests that a component was given. *)
Definition NOT_body (component : option Condition) (fields : list (string * pyvalue))
    : result Condition :=
  let items := fields_items fields in
  let items := match component with
               | Some c => items ++ [c]
               | None => items
               end in
  let count := length items in
  if decide (count ≠ 1)
  then Raise (ValueError ("NOT() requires exactly one condition; got " +:+ pretty count))
  else Compound_init (inl CompoundOperator.NOT) items.

(** A call of [NOT] with its positional arguments and its keyword
    arguments: the signature takes at most one positional argument,
    and the call fails before the body runs when there are more. *)
Definition NOT (args : list (option Condition)) (fields : list (string * pyvalue))
    : result Condition :=
  match args with
  | [] => NOT_body None fields
  | [component] => NOT_body component fields
  | _ => Raise (TypeError ("NOT() takes from 0 to 1 positional arguments but "
                           +:+ pretty (length args) +:+ " were given"))
  end.

(** The operators [&], [|], [^] and [~] of [Condition]. *)
Definition __and__ (self other : Condition) : result Condition :=
  AND [self; other] [].

Definition __or__ (self other : Condition) : result Condition :=
  OR [self; other] [].

Definition __xor__ (self other : Condition) : result Condition :=
  not_other ← NOT [Some other] [];
  lft ← AND [self; not_other] [];
  not_self ← NOT [Some self] [];
  rgt ← AND [other; not_self] [];
  OR [lft; rgt] [].

Definition __invert__ (self : Condition) : result Condition :=
  NOT [Some self] [].

(** ** Flattening of trees *)

(** [Condition.flatten] returns [self]; [Compound.flatten] merges the
    components of the components with the same operator into a new
    compound. On a tree no object is met twice, so the [memo] of the
    source never holds the object at hand and is left out here; it is
    modelled in [Heap.flatten], and [heap_flatten_tree] shows that it
    makes no difference on trees. *)
Fixpoint flatten (self : Condition) : result Condition :=
  match self with
  | Compound operator comps =>
      flattened ←
        (fix loop (items flattened : list Condition) {struct items}
             : result (list Condition) :=
           match items with
           | [] => Ok flattened
           | item :: items =>
               if same_operator_compound operator item
               then r ← flatten item; loop items (flattened ++ components r)
               else r ← flatten item; loop items (flattened ++ [r])
           end) comps [];
      Compound_init (inl operator) flattened
  | _ => Ok self
  end.

(** The loop of [Compound.flatten] over the components. *)
Fixpoint flatten_loop (operator : CompoundOperator.t) (items flattened : list Condition)
    : result (list Condition) :=
  match items with
  | [] => Ok flattened
  | item :: items =>
      if same_operator_compound operator item
      then r ← flatten item; flatten_loop operator items (flattened ++ components r)
      else r ← flatten item; flatten_loop operator items (flattened ++ [r])
  end.

(** A condition is single-level when no compound in it has a
    component that is a compound with its own operator, and no
    compound is empty. *)
Fixpoint single_level (c : Condition) : bool :=
  match c with
  | Compound operator comps =>
      negb (bool_decide (comps = []))
      && forallb (λ item, negb (same_operator_compound operator item) && single_level item)
           comps
  | _ => true
  end.

(** What [single_level] asks of a component of a compound. *)
Definition single_level_item (operator : CompoundOperator.t) (item : Condition) : bool :=
  negb (same_operator_compound operator item) && single_level item.

(** The invariant of the constructor: every compound has at least
    one component. *)
Fixpoint well_formed (c : Condition) : bool :=
  match c with
  | Compound _ comps => negb (bool_decide (comps = [])) && forallb well_formed comps
  | _ => true
  end.

(** ** Renderers *)

(** The renderer classes. ([PythonRenderer], which only changes the
    table of comparisons and formats values with [repr], is not
    modelled.) *)
Inductive Renderer := GenericRenderer | LdapRenderer | AirtableRenderer.

(** [fmt.format(items=items)]: every [{items}] of the format string
    is replaced. The format strings of the tables have no other
    braces. *)
Fixpoint format_items (fmt items : string) : string :=
  match fmt with
  | String "{"%char (String "i"%char (String "t"%char (String "e"%char
      (String "m"%char (String "s"%char (String "}"%char rest)))))) =>
      items +:+ format_items rest items
  | String c rest => String c (format_items rest items)
  | EmptyString => EmptyString
  end.

(** The class attribute [compounds]: format string and delimiter. *)
Definition compounds (self : Renderer) (operator : CompoundOperator.t) : string * string :=
  match self, operator with
  | GenericRenderer, CompoundOperator.AND => ("({items})", " and ")
  | GenericRenderer, CompoundOperator.OR => ("({items})", " or ")
  | GenericRenderer, CompoundOperator.NOT => ("not {items}", "")
  | LdapRenderer, CompoundOperator.AND => ("(&{items})", "")
  | LdapRenderer, CompoundOperator.OR => ("(|{items})", "")
  | LdapRenderer, CompoundOperator.NOT => ("(!{items})", "")
  | AirtableRenderer, CompoundOperator.AND => ("AND({items})", ", ")
  | AirtableRenderer, CompoundOperator.OR => ("OR({items})", ", ")
  | AirtableRenderer, CompoundOperator.NOT => ("NOT({items})", ", ")
  end.

(** The class attribute [comparisons], which no subclass modelled
    here overrides. *)
Definition comparisons (self : Renderer) (cls : ComparisonType.t) : string :=
  match cls with
  | ComparisonType.EQ => "="
  | ComparisonType.NE => "!="
  | ComparisonType.GT => ">"
  | ComparisonType.GTE => ">="
  | ComparisonType.LT => "<"
  | ComparisonType.LTE => "<="
  end.

(** [field.startswith("{")] and [field.endswith("}")] *)
Definition startswith_lbrace (field : string) : bool :=
  match field with
  | String "{"%char _ => true
  | _ => false
  end.

Fixpoint endswith_rbrace (field : string) : bool :=
  match field with
  | EmptyString => false
  | String c EmptyString => bool_decide (c = "}"%char)
  | String _ rest => endswith_rbrace rest
  end.

Definition Renderer_format_field (field : string) : string := field.

Definition LdapRenderer_format_field (field : string) : string :=
  if decide (field = "memberOf")
  then "memberOf:1.2.840.113556.1.4.1941"
  else Renderer_format_field field.

Definition AirtableRenderer_format_field (field : string) : string :=
  if negb (startswith_lbrace field && endswith_rbrace field)
  then "{" +:+ field +:+ "}"
  else field.

(** [self.format_field(field)] *)
Definition format_field (self : Renderer) (field : string) : string :=
  match self with
  | GenericRenderer => Renderer_format_field field
  | LdapRenderer => LdapRenderer_format_field field
  | AirtableRenderer => AirtableRenderer_format_field field
  end.

Definition Renderer_format_value (value : pyvalue) : result string :=
  Ok (py_str value).

Definition LdapRenderer_format_value (value : pyvalue) : result string :=
  match value with
  | VDate _ | VDatetime _ => Ok (strftime_ldap value)
  | _ => Renderer_format_value value
  end.

Definition AirtableRenderer_format_value (value : pyvalue) : result string :=
  match value with
  | VNone => Ok "EMPTY()"
  | VBool b => Ok (pretty (Z.b2z b))
  | VDate _ | VDatetime _ => Ok (repr_plain (isoformat value))
  | VInt _ | VFloat _ | VDecimal _ | VExpression _ => Ok (py_str value)
  | _ => Raise (TypeError (type_repr value))
  end.

(** [self.format_value(value)] *)
Definition format_value (self : Renderer) (value : pyvalue) : result string :=
  match self with
  | GenericRenderer => Renderer_format_value value
  | LdapRenderer => LdapRenderer_format_value value
  | AirtableRenderer => AirtableRenderer_format_value value
  end.

(** [Renderer.render_comparison] on a comparison of class [cls]. *)
Definition Renderer_render_comparison (self : Renderer)
    (cls : ComparisonType.t) (field : string) (value : pyvalue) : result string :=
  let field := format_field self field in
  value ← format_value self value;
  let operator := comparisons self cls in
  Ok (field +:+ operator +:+ value).

Definition LdapRenderer_render_comparison (self : Renderer)
    (cls : ComparisonType.t) (field : string) (value : pyvalue) : result string :=
  match value with
  | VNone => Ok ("(!" +:+ field +:+ "=*)")
  | _ => s ← Renderer_render_comparison self cls field value; Ok ("(" +:+ s +:+ ")")
  end.

(** [self.render_comparison(comparison)] *)
Definition render_comparison (self : Renderer)
    (cls : ComparisonType.t) (field : string) (value : pyvalue) : result string :=
  match self with
  | LdapRenderer => LdapRenderer_render_comparison self cls field value
  | _ => Renderer_render_comparison self cls field value
  end.

(** [Renderer.render_expression]: [str(expression)] *)
Definition render_expression (self : Renderer) (value : string) : result string :=
  Ok value.

(** [Renderer.render_compound], given what [self.to_str] does. *)
Definition render_compound (self : Renderer) (to_str : Condition → result string)
    (compound : Condition) : result string :=
  match compound with
  | Compound operator comps =>
      let '(fmt, joiner) := compounds self operator in
      items ← mapM to_str comps;
      Ok (format_items fmt (String.concat joiner items))
  | _ => Raise (AttributeError "operator")
  end.

(** [Renderer.to_str], given what [self.to_str] does. The three
    variants of [Condition] all have their render method; the
    [TypeError] of the source is for classes added by a caller. *)
Definition Renderer_to_str (self : Renderer) (to_str : Condition → result string)
    (condition : Condition) : result string :=
  match condition with
  | Comparison cls field value => render_comparison self cls field value
  | Expression _ =>
      condition ← flatten condition;
      match condition with
      | Expression value => render_expression self value
      | _ => Raise (AttributeError "value")
      end
  | Compound _ _ => condition ← flatten condition; render_compound self to_str condition
  end.

(** [LdapRenderer.to_str]: [NE] becomes [NOT(EQ)] and goes to the
    [to_str] of the base class. *)
Definition LdapRenderer_to_str (self : Renderer) (to_str : Condition → result string)
    (component : Condition) : result string :=
  match component with
  | Comparison ComparisonType.NE field value =>
      c ← NOT [Some (EQ field value)] []; Renderer_to_str self to_str c
  | _ => Renderer_to_str self to_str component
  end.

(** What the LDAP renderer renders in the place of a condition: an
    [NE(f, v)] is replaced by [NOT(EQ(f, v))]. *)
Definition NE_as_NOT_EQ (c : Condition) : Condition :=
  match c with
  | Comparison ComparisonType.NE field value =>
      Compound CompoundOperator.NOT [EQ field value]
  | _ => c
  end.

(** [self.to_str(condition)]. Each call of [self.to_str] takes one
    unit of fuel. *)
Fixpoint to_str_fuel (fuel : nat) (self : Renderer) (condition : Condition)
    : result string :=
  match fuel with
  | 0 => OutOfFuel
  | S fuel =>
      match self with
      | LdapRenderer => LdapRenderer_to_str self (to_str_fuel fuel self) condition
      | _ => Renderer_to_str self (to_str_fuel fuel self) condition
      end
  end.

(** The number of nested calls of [self.to_str] that a condition
    takes: an [NE] is wrapped by the LDAP renderer and takes two. *)
Fixpoint rank (c : Condition) : nat :=
  match c with
  | Expression _ => 1
  | Comparison cls _ _ => if decide (cls = ComparisonType.NE) then 2 else 1
  | Compound _ comps => S (foldr (λ item n, rank item `max` n) 0 comps)
  end.

(** [to_str], with the fuel that [to_str_fuel_enough] shows to be
    enough. *)
Definition to_str (self : Renderer) (condition : Condition) : result string :=
  to_str_fuel (rank condition) self condition.

(** ** Conditions as objects of a store *)

Module Heap.

(** An object of one of the three classes; a compound holds the
    identities of its components. *)
Inductive object :=
  | OExpression (value : string)
  | OComparison (cls : ComparisonType.t) (field : string) (value : pyvalue)
  | OCompound (operator : CompoundOperator.t) (components : list nat).

(** The store: the identity [id(o)] of an object is its index.
    Objects are never freed, as the objects reachable from the
    argument of a call are not while the call runs. *)
Abbreviation heap := (list object).

(** A new object: the store with it, and its identity. *)
Definition alloc (h : heap) (o : object) : heap * nat :=
  (h ++ [o], length h).

(** [Compound.__init__] with an operator of the enumeration. *)
Definition Compound_init (h : heap) (operator : CompoundOperator.t)
    (components : list nat) : result (heap * nat) :=
  if decide (length components = 0)
  then Raise (ValueError "Compound() requires at least one condition")
  else Ok (alloc h (OCompound operator components)).

(** The assignment [compound.components = components]. *)
Definition set_components (h : heap) (compound : nat) (components : list nat) : heap :=
  match h !! compound with
  | Some (OCompound operator _) => <[compound := OCompound operator components]> h
  | _ => h
  end.

(** [isinstance(item, Compound) and item.operator == operator] *)
Definition same_operator_compound (operator : CompoundOperator.t) (item : object) : bool :=
  match item with
  | OCompound op _ => bool_decide (op = operator)
  | _ => false
  end.

(** [r.components] *)
Definition components (h : heap) (r : nat) : result (list nat) :=
  match h !! r with
  | Some (OCompound _ components) => Ok components
  | Some _ => Raise (AttributeError "components")
  | None => Raise (DanglingReference r)
  end.

(** The loop of [Compound.flatten], given what a call of
    [item.flatten] does. On entry [memo] holds [id(self)], so that
    the callee of [item.flatten(memo=memo)] keeps this very set and
    its additions are seen here; [item.flatten()] makes a set of
    its own. *)
Fixpoint flatten_loop
    (flatten : heap → gset nat → nat → result (heap * gset nat * nat))
    (operator : CompoundOperator.t) (items : list nat)
    (h : heap) (memo : gset nat) (flattened : list nat)
    : result (heap * gset nat * list nat) :=
  match items with
  | [] => Ok (h, memo, flattened)
  | item :: items =>
      if decide (item ∈ memo) then Raise (CircularDependency item)
      else match h !! item with
           | None => Raise (DanglingReference item)
           | Some o =>
               if same_operator_compound operator o
               then
                 '(h, memo, r) ← flatten h memo item;
                 cs ← components h r;
                 flatten_loop flatten operator items h memo (flattened ++ cs)
               else
                 '(h, _, r) ← flatten h ∅ item;
                 flatten_loop flatten operator items h memo (flattened ++ [r])
           end
  end.

(** [self.flatten(memo)]: the store after the call, the set that
    the call used, and the object returned. An empty [memo] stands
    for both [None] and an empty set, which the source replaces by
    a new set. For an object that is not a compound this is
    [Condition.flatten]. *)
Fixpoint flatten (fuel : nat) (h : heap) (memo : gset nat) (self : nat)
    : result (heap * gset nat * nat) :=
  match fuel with
  | 0 => OutOfFuel
  | S fuel =>
      match h !! self with
      | None => Raise (DanglingReference self)
      | Some (OCompound operator comps) =>
          let memo := {[self]} ∪ memo in
          '(h, memo, flattened) ← flatten_loop (flatten fuel) operator comps h memo [];
          '(h, r) ← Compound_init h operator flattened;
          Ok (h, memo, r)
      | Some _ => Ok (h, memo, self)
      end
  end.

(** The tree that an object unfolds to, when there is one: the
    objects reachable from it then form no cycle. *)
#[warnings="-register-all"]
Inductive unfolds (h : heap) : nat → Condition → Prop :=
  | unfolds_Expression i value :
      h !! i = Some (OExpression value) →
      unfolds h i (Expression value)
  | unfolds_Comparison i cls field value :
      h !! i = Some (OComparison cls field value) →
      unfolds h i (Comparison cls field value)
  | unfolds_Compound i operator comps ts :
      h !! i = Some (OCompound operator comps) →
      Forall2 (unfolds h) comps ts →
      unfolds h i (Compound operator ts).

(** [covers h i t ids]: the object [i] unfolds to [t], and [ids]
    has the compounds met on the way, once for every way that leads
    to them. *)
#[warnings="-register-all"]
Inductive covers (h : heap) : nat → Condition → list nat → Prop :=
  | covers_Expression i value :
      h !! i = Some (OExpression value) →
      covers h i (Expression value) []
  | covers_Comparison i cls field value :
      h !! i = Some (OComparison cls field value) →
      covers h i (Comparison cls field value) []
  | covers_Compound i operator comps ts idss :
      h !! i = Some (OCompound operator comps) →
      Forall3 (covers h) comps ts idss →
      covers h i (Compound operator ts) (i :: concat idss).

(** The objects below [i] form a tree as far as compounds go: no
    compound is the component of two compounds or twice a component.
    Leaves may be. *)
Definition tree_shaped (h : heap) (i : nat) : Prop :=
  ∃ t ids, covers h i t ids ∧ NoDup ids.

(** A [memo] holds identities of compounds only, as [flatten] only
    adds such. *)
Definition memo_of_compounds (h : heap) (memo : gset nat) : Prop :=
  ∀ x, x ∈ memo → ∃ operator comps, h !! x = Some (OCompound operator comps).

(** [includes h i j]: the object [j] is a component of the compound
    [i], directly or through components of components. *)
Definition includes (h : heap) : nat → nat → Prop :=
  tc (λ i j, ∃ operator comps, h !! i = Some (OCompound operator comps) ∧ j ∈ comps).

(** No compound of the store includes itself. *)
Definition acyclic (h : heap) : Prop := ∀ i, ¬ includes h i i.

(** *** Stores of the examples *)

(** [(a & b) & (c & (d | e))] of the docstring of [Compound.flatten],
    every object made once: the store and the outer compound. *)
Definition nested_and : result (heap * nat) :=
  let '(h, a) := alloc [] (OComparison ComparisonType.EQ "a" (VStr "a")) in
  let '(h, b) := alloc h (OComparison ComparisonType.EQ "b" (VStr "b")) in
  let '(h, c) := alloc h (OComparison ComparisonType.EQ "c" (VStr "c")) in
  let '(h, d) := alloc h (OComparison ComparisonType.EQ "d" (VStr "d")) in
  let '(h, e) := alloc h (OComparison ComparisonType.EQ "e" (VStr "e")) in
  '(h, ab) ← Compound_init h CompoundOperator.AND [a; b];
  '(h, de) ← Compound_init h CompoundOperator.OR [d; e];
  '(h, cde) ← Compound_init h CompoundOperator.AND [c; de];
  Compound_init h CompoundOperator.AND [ab; cde].

(** [circular = NOT(Expression("x")); circular.components = [circular]]
    of the docstring of [Compound.flatten]: the store and [circular]. *)
Definition circular_not : result (heap * nat) :=
  let '(h, x) := alloc [] (OExpression "x") in
  '(h, circular) ← Compound_init h CompoundOperator.NOT [x];
  Ok (set_components h circular [circular], circular).

(** [a = AND(Expression("x")); b = AND(a); a.components = [b]]: the
    store and [a]. *)
Definition cycle_same_operator : result (heap * nat) :=
  let '(h, x) := alloc [] (OExpression "x") in
  '(h, a) ← Compound_init h CompoundOperator.AND [x];
  '(h, b) ← Compound_init h CompoundOperator.AND [a];
  Ok (set_components h a [b], a).

(** [a = AND(Expression("x")); b = OR(a); a.components = [b]]: the
    store and [a]. *)
Definition cycle_across_operators : result (heap * nat) :=
  let '(h, x) := alloc [] (OExpression "x") in
  '(h, a) ← Compound_init h CompoundOperator.AND [x];
  '(h, b) ← Compound_init h CompoundOperator.OR [a];
  Ok (set_components h a [b], a).

(** [x = AND(EQ("a", 1), EQ("b", 2)); root = AND(x, x)], which is
    [x & x]: the store, [root] and [x]. *)
Definition shared_siblings : result (heap * nat * nat) :=
  let '(h, a) := alloc [] (OComparison ComparisonType.EQ "a" (VInt 1)) in
  let '(h, b) := alloc h (OComparison ComparisonType.EQ "b" (VInt 2)) in
  '(h, x) ← Compound_init h CompoundOperator.AND [a; b];
  '(h, root) ← Compound_init h CompoundOperator.AND [x; x];
  Ok (h, root, x).

(** [x = AND(EQ("a", 1), EQ("b", 2)); root = AND(AND(x, c), AND(x, d))]
    with two expressions [c] and [d]: the store, [root] and [x]. *)
Definition shared_under_parents : result (heap * nat * nat) :=
  let '(h, a) := alloc [] (OComparison ComparisonType.EQ "a" (VInt 1)) in
  let '(h, b) := alloc h (OComparison ComparisonType.EQ "b" (VInt 2)) in
  '(h, x) ← Compound_init h CompoundOperator.AND [a; b];
  let '(h, c) := alloc h (OExpression "c") in
  let '(h, d) := alloc h (OExpression "d") in
  '(h, lft) ← Compound_init h CompoundOperator.AND [x; c];
  '(h, rgt) ← Compound_init h CompoundOperator.AND [x; d];
  '(h, root) ← Compound_init h CompoundOperator.AND [lft; rgt];
  Ok (h, root, x).

(** [a = EQ("a", 1); root = AND(OR(a, a), OR(a, a))] with one leaf
    [a] and one compound [OR(a, a)], each used twice: the store and
    [root]. *)
Definition shared_leaf : result (heap * nat) :=
  let '(h, a) := alloc [] (OComparison ComparisonType.EQ "a" (VInt 1)) in
  '(h, o) ← Compound_init h CompoundOperator.OR [a; a];
  '(h, root) ← Compound_init h CompoundOperator.AND [o; o];
  Ok (h, root).

End Heap.

(** What a successful call of [flatten] on the store does, stated on
    trees. *)
Definition refines_flatten
    (f : list Heap.object → gset nat → nat → result (list Heap.object * gset nat * nat))
    : Prop :=
  ∀ h memo self h' memo' r,
    f h memo self = Ok (h', memo', r) →
    h `prefix_of` h'
    ∧ ∃ t t', Heap.unfolds h' self t ∧ flatten t = Ok t' ∧ Heap.unfolds h' r t'.

(** What a call of [flatten] on the store does when it does what
    [flatten] does on the tree [t]: it raises what [flatten] raises,
    or returns a new object that unfolds to what [flatten] returns,
    having added objects to the store and some of [ids] to [memo]. *)
Definition flattens_as (t : Condition) (h : list Heap.object) (memo : gset nat)
    (ids : list nat) (res : result (list Heap.object * gset nat * nat)) : Prop :=
  match flatten t with
  | Ok t' =>
      ∃ h' memo' r,
        res = Ok (h', memo', r)
        ∧ h `prefix_of` h'
        ∧ Heap.unfolds h' r t'
        ∧ memo' ⊆ memo ∪ list_to_set ids
  | Raise e => res = Raise e
  | OutOfFuel => False
  end.

(** The compounds of a list of objects are new between two sizes of
    the store, and each is met once. *)
Definition new_trees (h : list Heap.object) (from : nat) (items : list nat)
    (ts : list Condition) : Prop :=
  ∃ idss, Forall3 (Heap.covers h) items ts idss
          ∧ NoDup (concat idss)
          ∧ Forall (λ x, from ≤ x < length h) (concat idss).

(** What [flatten] returns on the store is such a tree, made of
    objects that the call added. *)
Definition returns_new_tree
    (f : list Heap.object → gset nat → nat → result (list Heap.object * gset nat * nat))
    : Prop :=
  ∀ h memo self h' memo' r,
    f h memo self = Ok (h', memo', r) →
    h `prefix_of` h' ∧ ∃ t', new_trees h' (length h) [r] [t'].

(** ** The conditions of the examples *)

Module Examples.

(** [(a & b) & (c & (d | e))] of the docstring of [Compound.flatten]. *)
Definition nested_and : result Condition :=
  let a := EQ "a" (VStr "a") in
  let b := EQ "b" (VStr "b") in
  let c := EQ "c" (VStr "c") in
  let d := EQ "d" (VStr "d") in
  let e := EQ "e" (VStr "e") in
  ab ← __and__ a b;
  de ← __or__ d e;
  cde ← __and__ c de;
  __and__ ab cde.

(** [NE("memberOf", "group") & EQ("name", None)] of the docstring of
    [LdapRenderer]. *)
Definition member_of_group : result Condition :=
  __and__ (NE "memberOf" (VStr "group")) (EQ "name" VNone).

End Examples.

(** ** Leaves, depth and closed stores *)

(** The conditions that are not compounds, from left to right. *)
Fixpoint leaves (c : Condition) : list Condition :=
  match c with
  | Compound _ comps => concat (map leaves comps)
  | _ => [c]
  end.

(** The number of compounds on the longest way down to a leaf. *)
Fixpoint depth (c : Condition) : nat :=
  match c with
  | Compound _ comps => S (foldr (λ item n, depth item `max` n) 0 comps)
  | _ => 0
  end.

(** The message of the [ValueError] of [Compound.__init__]. *)
Definition no_condition : exn :=
  ValueError "Compound() requires at least one condition".

(** [operator.name], the key of [CompoundOperator[name]]. *)
Definition operator_name (operator : CompoundOperator.t) : string :=
  match operator with
  | CompoundOperator.AND => "AND"
  | CompoundOperator.OR => "OR"
  | CompoundOperator.NOT => "NOT"
  end.

(** Every component of a compound of the store is an object of the
    store, as in a Python heap. *)
Definition closed (h : list Heap.object) : Prop :=
  ∀ i operator comps,
    h !! i = Some (Heap.OCompound operator comps) → Forall (λ j, j < length h) comps.

(** * Properties *)

(** ** Results *)

Lemma bind_Ok {A B} (m : result A) (f : A → result B) b :
  m ≫= f = Ok b ↔ ∃ a, m = Ok a ∧ f a = Ok b.
Proof.
  destruct m; simpl; split; try (intros (? & ? & ?)); try intros ?; simplify_eq; eauto.
Qed.

Lemma mapM_ext_Forall {A B} (f g : A → result B) (l : list A) :
  Forall (λ x, f x = g x) l → mapM f l = mapM g l.
Proof.
  induction 1 as [|x l Hx _ IH]; simpl; [done|]. by rewrite Hx, IH.
Qed.

(** ** Flattening of trees *)

Lemma flatten_Compound operator comps :
  flatten (Compound operator comps) =
  flatten_loop operator comps [] ≫= Compound_init (inl operator).
Proof.
  simpl. f_equal.
  match goal with
  | |- ?loop comps [] = _ =>
      enough (∀ acc, loop comps acc = flatten_loop operator comps acc) by done
  end.
  induction comps as [|item items IH]; intros acc; simpl; [done|].
  destruct (same_operator_compound operator item), (flatten item); simpl; auto.
Qed.

Lemma Compound_init_Ok operator comps c :
  Compound_init (inl operator) comps = Ok c ↔ comps ≠ [] ∧ c = Compound operator comps.
Proof.
  unfold Compound_init; simpl. destruct comps; simpl; split;
    intros; destruct_and?; simplify_eq; done.
Qed.

Lemma flatten_loop_cons operator item items acc :
  flatten_loop operator (item :: items) acc =
  if same_operator_compound operator item
  then r ← flatten item; flatten_loop operator items (acc ++ components r)
  else r ← flatten item; flatten_loop operator items (acc ++ [r]).
Proof. done. Qed.

(** What [flatten] returns for a compound is a compound with the same
    operator and at least one component. *)
Lemma flatten_Compound_Ok operator comps r :
  flatten (Compound operator comps) = Ok r ↔
  ∃ flattened, flatten_loop operator comps [] = Ok flattened
               ∧ flattened ≠ [] ∧ r = Compound operator flattened.
Proof.
  rewrite flatten_Compound, bind_Ok. by setoid_rewrite Compound_init_Ok.
Qed.

(** Flattening keeps the class and the operator of a condition. *)
Lemma flatten_same_operator_compound operator c r :
  flatten c = Ok r → same_operator_compound operator r = same_operator_compound operator c.
Proof.
  destruct c as [| |op comps]; [by intros [= <-]..|].
  rewrite flatten_Compound_Ok. by intros (fl & _ & _ & ->).
Qed.

Lemma single_level_Compound operator comps :
  single_level (Compound operator comps) = true ↔
  comps ≠ [] ∧ Forall (λ item, single_level_item operator item = true) comps.
Proof.
  simpl. rewrite andb_true_iff, negb_true_iff, bool_decide_eq_false, forallb_forall.
  rewrite Forall_forall. unfold single_level_item.
  by setoid_rewrite list_elem_of_In.
Qed.

Lemma flatten_loop_single_level operator items :
  Forall (λ c, ∀ r, flatten c = Ok r → single_level r = true) items →
  ∀ acc flattened,
    Forall (λ item, single_level_item operator item = true) acc →
    flatten_loop operator items acc = Ok flattened →
    Forall (λ item, single_level_item operator item = true) flattened.
Proof.
  induction 1 as [|item items Hitem _ IH]; intros acc flattened Hacc; simpl.
  { by intros [= <-]. }
  destruct (same_operator_compound operator item) eqn:Hsame.
  - intros (r & Hr & Hloop)%bind_Ok. eapply IH; [|exact Hloop].
    apply Forall_app; split; [done|].
    pose proof (Hitem _ Hr) as Hsl.
    destruct item as [| |op comps]; [done..|]. simpl in Hsame.
    apply bool_decide_eq_true in Hsame as ->.
    apply flatten_Compound_Ok in Hr as (fl & _ & _ & ->).
    by apply single_level_Compound in Hsl as [_ ?].
  - intros (r & Hr & Hloop)%bind_Ok. eapply IH; [|exact Hloop].
    apply Forall_app; split; [done|]. apply Forall_singleton.
    unfold single_level_item.
    by rewrite (flatten_same_operator_compound _ _ _ Hr), Hsame, (Hitem _ Hr).
Qed.

(** What [flatten] returns is single-level. *)
Lemma flatten_single_level c r :
  flatten c = Ok r → single_level r = true.
Proof.
  revert r. induction c as [| |operator comps IH] using Condition_ind'; intros r.
  - by intros [= <-].
  - by intros [= <-].
  - intros (fl & Hloop & Hne & ->)%flatten_Compound_Ok.
    apply single_level_Compound; split; [done|].
    by eapply flatten_loop_single_level.
Qed.

Lemma flatten_loop_of_single_level operator items :
  Forall (λ c, single_level c = true → flatten c = Ok c) items →
  Forall (λ item, single_level_item operator item = true) items →
  ∀ acc, flatten_loop operator items acc = Ok (acc ++ items).
Proof.
  induction 1 as [|item items Hitem _ IH]; intros Hsl acc; simpl.
  { by rewrite app_nil_r. }
  apply Forall_cons in Hsl as [[Hsame Hitem_sl]%andb_true_iff Hsl].
  apply negb_true_iff in Hsame. rewrite Hsame, (Hitem Hitem_sl); simpl.
  rewrite (IH Hsl). by rewrite <-app_assoc.
Qed.

(** A single-level condition is flattened to itself. *)
Lemma flatten_of_single_level c :
  single_level c = true → flatten c = Ok c.
Proof.
  induction c as [| |operator comps IH] using Condition_ind'; [done..|].
  intros [Hne Hsl]%single_level_Compound.
  apply flatten_Compound_Ok. exists comps. split_and!; [|done..].
  by apply (flatten_loop_of_single_level operator comps IH Hsl []).
Qed.

Lemma flatten_loop_length operator items : ∀ acc flattened,
  flatten_loop operator items acc = Ok flattened →
  length acc + length items ≤ length flattened.
Proof.
  induction items as [|item items IH]; intros acc flattened; simpl.
  { intros [= <-]. lia. }
  destruct (same_operator_compound operator item) eqn:Hsame;
    intros (r & Hr & Hloop%IH)%bind_Ok; rewrite length_app in Hloop; simpl in Hloop; [|lia].
  destruct item as [| |op comps]; [done..|].
  apply flatten_Compound_Ok in Hr as (fl & _ & Hne & ->). simpl in Hloop.
  destruct fl; [done|]. simpl in Hloop. lia.
Qed.

(** A tree whose compounds all have a component is flattened. *)
Lemma flatten_well_formed c : well_formed c = true → ∃ r, flatten c = Ok r.
Proof.
  induction c as [| |operator comps IH] using Condition_ind'; [by eauto..|].
  simpl. intros [Hne Hwf]%andb_true_iff.
  apply negb_true_iff, bool_decide_eq_false in Hne.
  rewrite forallb_forall in Hwf. setoid_rewrite <-list_elem_of_In in Hwf.
  assert (∀ acc, ∃ flattened, flatten_loop operator comps acc = Ok flattened) as Hloop.
  { clear Hne. induction IH as [|item items Hitem _ IHitems]; intros acc; [by eexists|].
    rewrite flatten_loop_cons.
    destruct Hitem as [r ->]; [apply Hwf; by left|].
    destruct (same_operator_compound operator item); simpl;
      apply IHitems; intros ? ?; apply Hwf; by right. }
  destruct (Hloop []) as [flattened Hflattened].
  exists (Compound operator flattened). apply flatten_Compound_Ok.
  exists flattened. split_and!; [done| |done].
  apply flatten_loop_length in Hflattened. intros ->. destruct comps; [done|].
  simpl in Hflattened. lia.
Qed.

(** The list that the loop has built so far stays in front of what
    the loop adds. *)
Lemma flatten_loop_acc operator items : ∀ acc,
  flatten_loop operator items acc = (acc ++.) <$> flatten_loop operator items [].
Proof.
  induction items as [|item items IH]; intros acc; simpl.
  { by rewrite app_nil_r. }
  destruct (same_operator_compound operator item), (flatten item) as [r| |]; simpl; try done.
  - rewrite IH, (IH (components r)).
    destruct (flatten_loop operator items []); simpl; [|done..]. by rewrite app_assoc.
  - rewrite IH, (IH [r]).
    destruct (flatten_loop operator items []); simpl; [|done..]. by rewrite <-app_assoc.
Qed.

Lemma flatten_loop_app operator items items' : ∀ acc,
  flatten_loop operator (items ++ items') acc
  = flatten_loop operator items acc ≫= flatten_loop operator items'.
Proof.
  induction items as [|item items IH]; intros acc; simpl; [done|].
  destruct (same_operator_compound operator item), (flatten item) as [r| |]; simpl; auto.
Qed.

(** A leaf or a compound with another operator that is flattened to
    itself is flattened to itself among the components. *)
Lemma flatten_Compound_insert operator pre x post :
  same_operator_compound operator x = false → flatten x = Ok x →
  flatten (Compound operator (pre ++ x :: post))
  = (before ← flatten_loop operator pre [];
     after ← flatten_loop operator post [];
     Ok (Compound operator (before ++ x :: after))).
Proof.
  intros Hsame Hx. rewrite flatten_Compound, flatten_loop_app.
  destruct (flatten_loop operator pre []) as [before| |]; simpl; [|done..].
  rewrite Hsame, Hx. simpl. rewrite flatten_loop_acc.
  destruct (flatten_loop operator post []) as [after| |]; simpl; [|done..].
  unfold Compound_init. simpl. rewrite <-app_assoc. simpl.
  rewrite decide_False; [done|]. rewrite length_app. simpl. lia.
Qed.

(** ** Fuel of [to_str] *)

Lemma rank_pos c : 1 ≤ rank c.
Proof. destruct c; simpl; [lia|case_decide; lia|lia]. Qed.

Lemma rank_Compound_le operator comps n :
  rank (Compound operator comps) ≤ S n ↔ Forall (λ item, rank item ≤ n) comps.
Proof.
  simpl. rewrite <-Nat.succ_le_mono.
  induction comps as [|item items IH]; simpl.
  - split; [constructor|lia].
  - rewrite Forall_cons, <-IH. lia.
Qed.

Lemma flatten_loop_rank n operator items :
  Forall (λ c, ∀ m r, rank c ≤ m → flatten c = Ok r → rank r ≤ m) items →
  Forall (λ item, rank item ≤ n) items →
  ∀ acc flattened,
    Forall (λ item, rank item ≤ n) acc →
    flatten_loop operator items acc = Ok flattened →
    Forall (λ item, rank item ≤ n) flattened.
Proof.
  induction 1 as [|item items Hitem _ IH]; intros Hitems acc flattened Hacc; simpl.
  { by intros [= <-]. }
  apply Forall_cons in Hitems as [Hrank Hitems].
  destruct (same_operator_compound operator item) eqn:Hsame;
    intros (r & Hr & Hloop)%bind_Ok; (eapply IH; [done| |exact Hloop]);
    (apply Forall_app; split; [done|]); pose proof (Hitem _ _ Hrank Hr) as Hle.
  - destruct item as [| |op comps]; [done..|].
    apply flatten_Compound_Ok in Hr as (fl & _ & _ & ->). simpl.
    destruct n as [|n]; [simpl in Hle; lia|].
    apply rank_Compound_le in Hle. eapply Forall_impl; [exact Hle|]. simpl; lia.
  - by apply Forall_singleton.
Qed.

(** Flattening does not raise the rank. *)
Lemma flatten_rank c : ∀ m r, rank c ≤ m → flatten c = Ok r → rank r ≤ m.
Proof.
  induction c as [| |operator comps IH] using Condition_ind'; intros m r Hm.
  - by intros [= <-].
  - by intros [= <-].
  - intros (fl & Hloop & Hne & ->)%flatten_Compound_Ok.
    destruct m as [|m]; [simpl in Hm; lia|].
    apply rank_Compound_le in Hm. apply rank_Compound_le.
    by eapply (flatten_loop_rank m operator comps IH); [|constructor|exact Hloop].
Qed.

Lemma Renderer_to_str_ext self f g c :
  (∀ r, flatten c = Ok r → Forall (λ item, f item = g item) (components r)) →
  Renderer_to_str self f c = Renderer_to_str self g c.
Proof.
  intros Hext. destruct c as [| |operator comps]; [done..|].
  unfold Renderer_to_str. destruct (flatten _) as [r| |] eqn:Hr; [|done..].
  specialize (Hext _ eq_refl).
  apply flatten_Compound_Ok in Hr as (fl & _ & _ & ->). simpl in *.
  by rewrite (mapM_ext_Forall _ _ _ Hext).
Qed.

(** More fuel than the rank does not change the result. *)
Lemma to_str_fuel_stable self : ∀ n m c,
  rank c ≤ n → rank c ≤ m → to_str_fuel n self c = to_str_fuel m self c.
Proof.
  induction n as [|n IH]; intros m c Hn Hm; pose proof (rank_pos c); [lia|].
  destruct m as [|m]; [lia|].
  assert (Renderer_to_str self (to_str_fuel n self) c
          = Renderer_to_str self (to_str_fuel m self) c) as Hbase.
  { apply Renderer_to_str_ext. intros r Hr.
    pose proof (flatten_rank _ _ _ Hn Hr) as Hrn.
    pose proof (flatten_rank _ _ _ Hm Hr) as Hrm.
    destruct r as [| |operator comps]; [constructor..|]. simpl.
    apply rank_Compound_le in Hrn, Hrm.
    apply Forall_forall. intros item Hitem.
    apply IH; [by eapply Forall_forall in Hrn|by eapply Forall_forall in Hrm]. }
  simpl. destruct self; [done| |done].
  destruct c as [|cls field value|]; [done| |done].
  destruct cls; [done| |done..].
  simpl in Hn, Hm. simpl. rewrite (IH m (Comparison ComparisonType.EQ field value)); simpl; [done|lia..].
Qed.

Lemma to_str_fuel_enough self fuel c :
  rank c ≤ fuel → to_str_fuel fuel self c = to_str self c.
Proof. intros. by apply to_str_fuel_stable. Qed.

Lemma bind_not_OutOfFuel {A B} (m : result A) (f : A → result B) :
  m ≠ OutOfFuel → (∀ a, m = Ok a → f a ≠ OutOfFuel) → m ≫= f ≠ OutOfFuel.
Proof. destruct m; simpl; auto. Qed.

Lemma mapM_not_OutOfFuel {A B} (f : A → result B) (l : list A) :
  Forall (λ x, f x ≠ OutOfFuel) l → mapM f l ≠ OutOfFuel.
Proof.
  induction 1 as [|x l Hx _ IH]; simpl; [done|].
  apply bind_not_OutOfFuel; [done|]. intros y _.
  by apply bind_not_OutOfFuel.
Qed.

(** Flattening a tree always returns or raises. *)
Lemma flatten_terminates c : flatten c ≠ OutOfFuel.
Proof.
  induction c as [| |operator comps IH] using Condition_ind'; [done..|].
  rewrite flatten_Compound. apply bind_not_OutOfFuel.
  - generalize (@nil Condition).
    induction IH as [|item items Hitem _ IH]; intros acc; simpl; [done|].
    destruct (same_operator_compound operator item); by apply bind_not_OutOfFuel.
  - intros fl _. unfold Compound_init; simpl. by case_decide.
Qed.

Lemma to_str_fuel_terminates self : ∀ n c,
  rank c ≤ n → to_str_fuel n self c ≠ OutOfFuel.
Proof.
  induction n as [|n IH]; intros c Hn; pose proof (rank_pos c); [lia|].
  assert (Renderer_to_str self (to_str_fuel n self) c ≠ OutOfFuel) as Hbase.
  { destruct c as [value|cls field value|operator comps].
    - done.
    - simpl. destruct self, value; simpl; try done; by destruct cls.
    - unfold Renderer_to_str. apply bind_not_OutOfFuel; [apply flatten_terminates|].
      intros r Hr. pose proof (flatten_rank _ _ _ Hn Hr) as Hrn.
      apply flatten_Compound_Ok in Hr as (fl & _ & _ & ->).
      apply rank_Compound_le in Hrn. simpl.
      destruct (compounds self operator) as [fmt joiner].
      apply bind_not_OutOfFuel; [|done].
      apply mapM_not_OutOfFuel. eapply Forall_impl; [exact Hrn|]. apply IH. }
  destruct self; [exact Hbase| |exact Hbase].
  destruct c as [|cls field value|]; [exact Hbase| |exact Hbase].
  destruct cls; [exact Hbase| |exact Hbase..].
  simpl in Hn. simpl.
  specialize (IH (Comparison ComparisonType.EQ field value)).
  destruct (to_str_fuel n LdapRenderer _); simpl in *; [done..|].
  destruct IH; [lia|done].
Qed.

(** Rendering a tree always returns or raises. *)
Lemma to_str_terminates self c : to_str self c ≠ OutOfFuel.
Proof. by apply to_str_fuel_terminates. Qed.

(** [to_str] on a compound, without fuel: the compound is flattened,
    and [to_str] renders the components of the result. *)
Lemma to_str_Compound self operator comps :
  to_str self (Compound operator comps)
  = (r ← flatten (Compound operator comps); render_compound self (to_str self) r).
Proof.
  unfold to_str.
  destruct (rank (Compound operator comps)) as [|k] eqn:Hk; [done|].
  assert (Renderer_to_str self (to_str_fuel k self) (Compound operator comps)
          = (r ← flatten (Compound operator comps);
             render_compound self (λ c, to_str_fuel (rank c) self c) r)) as Hbase.
  { unfold Renderer_to_str.
    destruct (flatten (Compound operator comps)) as [r| |] eqn:Hr; [|done..].
    pose proof (flatten_rank _ _ _ (Nat.le_refl _) Hr) as Hrank. rewrite Hk in Hrank.
    apply flatten_Compound_Ok in Hr as (fl & _ & _ & ->).
    apply rank_Compound_le in Hrank. simpl.
    destruct (compounds self operator) as [fmt joiner].
    rewrite (mapM_ext_Forall (to_str_fuel k self) (λ c, to_str_fuel (rank c) self c) fl);
      [done|].
    eapply Forall_impl; [exact Hrank|]. intros item Hitem. simpl in Hitem.
    by apply to_str_fuel_enough. }
  by destruct self.
Qed.

Lemma mapM_replace {A B} (f : A → result B) l1 x x' l2 :
  f x = f x' → mapM f (l1 ++ x :: l2) = mapM f (l1 ++ x' :: l2).
Proof.
  intros Hx. induction l1 as [|y l1 IH]; simpl; [by rewrite Hx|]. by rewrite IH.
Qed.

(** ** The LDAP renderer *)

Lemma to_str_LdapRenderer_NE field value :
  to_str LdapRenderer (NE field value)
  = to_str LdapRenderer (Compound CompoundOperator.NOT [EQ field value]).
Proof. reflexivity. Qed.

Lemma to_str_LdapRenderer_NE_as_NOT_EQ c :
  to_str LdapRenderer (NE_as_NOT_EQ c) = to_str LdapRenderer c.
Proof.
  destruct c as [|cls field value|]; [done| |done]. by destruct cls.
Qed.

(** Below an AND or an OR, an [NE] and the [NOT(EQ)] that replaces
    it are rendered alike. *)
Lemma ldap_NE_in_compound operator pre post field value :
  operator ≠ CompoundOperator.NOT →
  to_str LdapRenderer (Compound operator (pre ++ NE field value :: post))
  = to_str LdapRenderer
      (Compound operator (pre ++ Compound CompoundOperator.NOT [EQ field value] :: post)).
Proof.
  intros Hop. rewrite !to_str_Compound.
  rewrite !flatten_Compound_insert; [|by simpl; rewrite bool_decide_eq_false_2|done..].
  destruct (flatten_loop operator pre []) as [before| |]; simpl; [|done..].
  destruct (flatten_loop operator post []) as [after| |]; simpl; [|done..].
  destruct (compounds LdapRenderer operator) as [fmt joiner].
  by rewrite (mapM_replace _ before (NE field value)
                (Compound CompoundOperator.NOT [EQ field value]) after).
Qed.

(** Below a NOT they are not: [flatten] merges the [NOT(EQ)] into
    the NOT above it before [to_str] gets to it. *)
Lemma ldap_NE_below_NOT :
  to_str LdapRenderer (Compound CompoundOperator.NOT [NE "x" (VInt 1)])
  = Ok "(!(!(x=1)))"
  ∧ to_str LdapRenderer
      (Compound CompoundOperator.NOT [Compound CompoundOperator.NOT [EQ "x" (VInt 1)]])
    = Ok "(!(x=1))".
Proof. done. Qed.

(** C5: the LDAP renderer renders [NE(f, v)] as it renders
    [NOT(EQ(f, v))], that is as [(!...)] around the rendering of
    [EQ(f, v)]; it does so for the condition it is called on and for
    every component it reaches inside a compound, whose rendering is
    made of the renderings of the components of the flattened
    compound with [NE] replaced; so an [NE] among the components of
    an AND or an OR can be replaced by the [NOT(EQ)] without any
    change of the string. The example of the docstring,
    [NE("memberOf", "group") & EQ("name", None)], renders to the
    string that the docstring gives, with the matching-rule OID after
    [memberOf] and the test of presence negated for [name]. *)
Theorem ldap_NE_rewritten :
  (∀ field value,
     NOT [Some (EQ field value)] [] = Ok (Compound CompoundOperator.NOT [EQ field value])
     ∧ to_str LdapRenderer (NE field value)
       = to_str LdapRenderer (Compound CompoundOperator.NOT [EQ field value])
     ∧ to_str LdapRenderer (NE field value)
       = (s ← render_comparison LdapRenderer ComparisonType.EQ field value;
          Ok ("(!" +:+ s +:+ ")")))
  ∧ (∀ c operator items,
       flatten c = Ok (Compound operator items) →
       to_str LdapRenderer c
       = (strs ← mapM (λ item, to_str LdapRenderer (NE_as_NOT_EQ item)) items;
          Ok (format_items (compounds LdapRenderer operator).1
                (String.concat (compounds LdapRenderer operator).2 strs))))
  ∧ (∀ operator pre post field value,
       operator ≠ CompoundOperator.NOT →
       to_str LdapRenderer (Compound operator (pre ++ NE field value :: post))
       = to_str LdapRenderer
           (Compound operator
              (pre ++ Compound CompoundOperator.NOT [EQ field value] :: post)))
  ∧ (Examples.member_of_group ≫= to_str LdapRenderer)
    = Ok "(&(!(memberOf:1.2.840.113556.1.4.1941=group))(!name=*))".
Proof.
  split_and!; [| |apply ldap_NE_in_compound|done].
  - intros field value. split_and!; [done..|].
    unfold to_str; simpl.
    by destruct (LdapRenderer_render_comparison _ _ _ _).
  - intros c operator items Hc.
    assert (∃ comps, c = Compound operator comps) as [comps ->].
    { destruct c as [| |op comps]; [by simplify_eq/=..|].
      apply flatten_Compound_Ok in Hc as (? & _ & _ & [= <- _]). eauto. }
    pose proof (flatten_rank _ _ _ (Nat.le_refl _) Hc) as Hrank.
    unfold to_str.
    destruct (rank (Compound operator comps)) as [|k] eqn:Hk; [done|].
    apply rank_Compound_le in Hrank.
    cbn [to_str_fuel LdapRenderer_to_str Renderer_to_str]. rewrite Hc.
    cbn [mbind result_bind render_compound].
    destruct (compounds LdapRenderer operator) as [fmt joiner]. simpl fst; simpl snd.
    f_equal. apply mapM_ext_Forall.
    eapply Forall_impl; [exact Hrank|]. intros item Hitem. simpl in Hitem.
    rewrite to_str_fuel_enough by done.
    symmetry. apply to_str_LdapRenderer_NE_as_NOT_EQ.
Qed.

Lemma ldap_NE_rewritten_witness :
  to_str LdapRenderer
    (Compound CompoundOperator.OR [NE "uid" (VInt 1); GT "age" (VInt 2)])
  = (strs ← mapM (λ item, to_str LdapRenderer (NE_as_NOT_EQ item))
              [NE "uid" (VInt 1); GT "age" (VInt 2)];
     Ok (format_items (compounds LdapRenderer CompoundOperator.OR).1
           (String.concat (compounds LdapRenderer CompoundOperator.OR).2 strs)))
  ∧ to_str LdapRenderer
      (Compound CompoundOperator.AND ([GT "age" (VInt 2)] ++ NE "uid" (VInt 1) :: []))
    = to_str LdapRenderer
        (Compound CompoundOperator.AND
           ([GT "age" (VInt 2)]
            ++ Compound CompoundOperator.NOT [EQ "uid" (VInt 1)] :: [])).
Proof.
  split.
  - apply (proj1 (proj2 ldap_NE_rewritten)). reflexivity.
  - apply (proj1 (proj2 (proj2 ldap_NE_rewritten))). discriminate.
Defined.

(** C10: [LdapRenderer.render_comparison] renders a comparison of any
    of the six classes whose value is [None] as the negated test of
    presence of the field as it is written, without the symbol of the
    class and without [format_field], also for [memberOf], which
    [format_field] would replace. [to_str] gives the same string for
    all classes that it hands to [render_comparison], that is all but
    [NE]. *)
Theorem ldap_null_value_all_comparisons :
  (∀ cls field,
     render_comparison LdapRenderer cls field VNone = Ok ("(!" +:+ field +:+ "=*)"))
  ∧ (∀ cls field,
       cls ≠ ComparisonType.NE →
       to_str LdapRenderer (Comparison cls field VNone) = Ok ("(!" +:+ field +:+ "=*)"))
  ∧ to_str LdapRenderer (GT "x" VNone) = Ok "(!x=*)"
  ∧ to_str LdapRenderer (LTE "x" VNone) = Ok "(!x=*)"
  ∧ (∀ cls, render_comparison LdapRenderer cls "memberOf" VNone = Ok "(!memberOf=*)")
  ∧ format_field LdapRenderer "memberOf" = "memberOf:1.2.840.113556.1.4.1941"
  ∧ to_str LdapRenderer (GT "memberOf" VNone) = Ok "(!memberOf=*)"
  ∧ to_str LdapRenderer (GT "memberOf" (VInt 1))
    = Ok "(memberOf:1.2.840.113556.1.4.1941>1)".
Proof.
  split_and!; try done.
  intros cls field Hcls. by destruct cls.
Qed.

Lemma ldap_null_value_all_comparisons_witness :
  to_str LdapRenderer (Comparison ComparisonType.LT "mail" VNone)
  = Ok ("(!" +:+ "mail" +:+ "=*)").
Proof.
  apply (proj1 (proj2 ldap_null_value_all_comparisons)). discriminate.
Defined.

(** What [to_str] does with a null-valued [NE]: the [EQ] inside the
    [NOT] takes the special case. *)
Lemma ldap_null_value_NE field :
  to_str LdapRenderer (NE field VNone) = Ok ("(!" +:+ ("(!" +:+ field +:+ "=*)") +:+ ")").
Proof. reflexivity. Qed.

(** ** The Airtable renderer *)

(** C6: [AirtableRenderer.format_value] maps [None] to [EMPTY()],
    the booleans to [0] and [1], dates and datetimes to their ISO
    format in quotes, and integers, floats, decimals and expressions
    to their [str]; for a value of any other type (a string, or an
    object of another class such as a list) it raises [TypeError]
    with the type of the value, and so does the rendering of a
    comparison with such a value. *)
Theorem airtable_format_value_cases :
  format_value AirtableRenderer VNone = Ok "EMPTY()"
  ∧ format_value AirtableRenderer (VBool false) = Ok "0"
  ∧ format_value AirtableRenderer (VBool true) = Ok "1"
  ∧ (∀ d, format_value AirtableRenderer (VDate d) = Ok ("'" +:+ date_isoformat d +:+ "'"))
  ∧ (∀ d, format_value AirtableRenderer (VDatetime d)
          = Ok ("'" +:+ datetime_isoformat "T" d +:+ "'"))
  ∧ format_value AirtableRenderer (VDate (Date 2023 1 23)) = Ok "'2023-01-23'"
  ∧ format_value AirtableRenderer (VDatetime (Datetime (Date 2023 1 23) 4 5 6 0))
    = Ok "'2023-01-23T04:05:06'"
  ∧ (∀ n, format_value AirtableRenderer (VInt n) = Ok (py_str (VInt n)))
  ∧ (∀ s, format_value AirtableRenderer (VFloat s) = Ok (py_str (VFloat s)))
  ∧ (∀ s, format_value AirtableRenderer (VDecimal s) = Ok (py_str (VDecimal s)))
  ∧ (∀ s, format_value AirtableRenderer (VExpression s) = Ok (py_str (VExpression s)))
  ∧ format_value AirtableRenderer (VInt (-12)) = Ok "-12"
  ∧ (∀ s, format_value AirtableRenderer (VStr s) = Raise (TypeError "<class 'str'>"))
  ∧ (∀ type_name s,
       format_value AirtableRenderer (VOther type_name s)
       = Raise (TypeError ("<class '" +:+ type_name +:+ "'>")))
  ∧ (∀ cls field value e,
       format_value AirtableRenderer value = Raise e →
       to_str AirtableRenderer (Comparison cls field value) = Raise e)
  ∧ to_str AirtableRenderer (EQ "baz" (VOther "list" "['lists', 'not', 'supported']"))
    = Raise (TypeError "<class 'list'>").
Proof.
  split_and!; try done.
  intros cls field value e He. unfold to_str.
  destruct (rank _) as [|k] eqn:Hk; [by destruct cls|].
  simpl. unfold Renderer_render_comparison. by rewrite He.
Qed.

Lemma airtable_format_value_cases_witness :
  to_str AirtableRenderer (LT "name" (VStr "bob")) = Raise (TypeError "<class 'str'>").
Proof.
  apply (proj1 (proj2 (proj2 (proj2 (proj2 (proj2 (proj2 (proj2 (proj2 (proj2 (proj2
           (proj2 (proj2 (proj2 (proj2 airtable_format_value_cases))))))))))))))).
  reflexivity.
Defined.

(** ** Constructors *)

(** C7: [a ^ b] builds [OR(AND(a, NOT(b)), AND(b, NOT(a)))], as the
    same calls of the constructors do, and the generic renderer gives
    the same string for both. *)
Theorem xor_desugaring a b :
  __xor__ a b
  = Ok (Compound CompoundOperator.OR
          [Compound CompoundOperator.AND [a; Compound CompoundOperator.NOT [b]];
           Compound CompoundOperator.AND [b; Compound CompoundOperator.NOT [a]]])
  ∧ (not_b ← NOT [Some b] []; lft ← AND [a; not_b] [];
     not_a ← NOT [Some a] []; rgt ← AND [b; not_a] [];
     OR [lft; rgt] [])
    = __xor__ a b
  ∧ (__xor__ a b ≫= to_str GenericRenderer)
    = to_str GenericRenderer
        (Compound CompoundOperator.OR
           [Compound CompoundOperator.AND [a; Compound CompoundOperator.NOT [b]];
            Compound CompoundOperator.AND [b; Compound CompoundOperator.NOT [a]]])
  ∧ (__xor__ (Expression "a") (Expression "b") ≫= to_str GenericRenderer)
    = Ok "((a and not b) or (b and not a))".
Proof. done. Qed.

(** C8: a call of [NOT] with more than one positional argument
    raises [TypeError]; a call with at most one positional argument
    whose components, the positional one and the ones of the keyword
    arguments, are not exactly one raises [ValueError] with their
    number. So [NOT(a, b)] fails with another class of exception than
    [NOT(a, bar=2)] and [NOT()]. *)
Theorem NOT_arity_errors :
  (∀ args fields,
     1 < length args →
     NOT args fields
     = Raise (TypeError ("NOT() takes from 0 to 1 positional arguments but "
                         +:+ pretty (length args) +:+ " were given")))
  ∧ (∀ component fields,
       let count := length fields + (if component is Some _ then 1 else 0) in
       count ≠ 1 →
       NOT [component] fields
       = Raise (ValueError ("NOT() requires exactly one condition; got " +:+ pretty count)))
  ∧ (∀ fields,
       length fields ≠ 1 →
       NOT [] fields
       = Raise (ValueError ("NOT() requires exactly one condition; got "
                            +:+ pretty (length fields))))
  ∧ (∀ a b,
       NOT [Some a; Some b] []
       = Raise (TypeError "NOT() takes from 0 to 1 positional arguments but 2 were given"))
  ∧ (∀ a value,
       NOT [Some a] [("bar", value)]
       = Raise (ValueError "NOT() requires exactly one condition; got 2"))
  ∧ NOT [] [] = Raise (ValueError "NOT() requires exactly one condition; got 0")
  ∧ (∀ a b value, NOT [Some a; Some b] [] ≠ NOT [Some a] [("bar", value)])
  ∧ (∀ a b, NOT [Some a; Some b] [] ≠ NOT [] [])
  ∧ (∀ msg msg', TypeError msg ≠ ValueError msg').
Proof.
  assert (∀ component fields,
            length (fields_items fields ++ (if component is Some c then [c] else []))
            = length fields + (if component is Some _ then 1 else 0)) as Hlen.
  { intros component fields. unfold fields_items.
    rewrite length_app, length_map. by destruct component. }
  split_and!; try done.
  - intros [|? [|? args]] fields Hargs; simpl in *; [lia..|done].
  - intros component fields count Hcount. subst count.
    unfold NOT, NOT_body. specialize (Hlen component fields).
    destruct component; simpl in Hlen.
    + rewrite Hlen. by rewrite decide_True.
    + rewrite app_nil_r in Hlen. rewrite Hlen. by rewrite decide_True.
  - intros fields Hcount. unfold NOT, NOT_body.
    specialize (Hlen None fields). simpl in Hlen.
    rewrite app_nil_r, Nat.add_0_r in Hlen. rewrite Hlen. by rewrite decide_True.
Qed.

Lemma NOT_arity_errors_witness :
  NOT [Some (Expression "a"); None; Some (Expression "b")] [("foo", VInt 1)]
  = Raise (TypeError "NOT() takes from 0 to 1 positional arguments but 3 were given")
  ∧ NOT [Some (Expression "a")] [("foo", VInt 1); ("bar", VInt 2)]
    = Raise (ValueError "NOT() requires exactly one condition; got 3")
  ∧ NOT [] [("foo", VInt 1); ("bar", VInt 2)]
    = Raise (ValueError "NOT() requires exactly one condition; got 2").
Proof.
  split_and!.
  - apply (proj1 NOT_arity_errors
             [Some (Expression "a"); None; Some (Expression "b")] [("foo", VInt 1)]).
    simpl. lia.
  - apply (proj1 (proj2 NOT_arity_errors)
             (Some (Expression "a")) [("foo", VInt 1); ("bar", VInt 2)]).
    simpl. lia.
  - apply (proj1 (proj2 (proj2 NOT_arity_errors)) [("foo", VInt 1); ("bar", VInt 2)]).
    simpl. lia.
Defined.

(** A call of [NOT] with exactly one component succeeds. *)
Lemma NOT_one_component component fields :
  length fields + (if component is Some _ then 1 else 0) = 1 →
  ∃ c, NOT [component] fields = Ok (Compound CompoundOperator.NOT [c]).
Proof.
  destruct component as [c|], fields as [|[k v] [|? fields]]; simpl; try lia; eauto.
Qed.

(** C9: [Compound.__init__] raises [ValueError] when it is given no
    component, for every operator of the enumeration, given as such
    or by its name; so do [AND()] and [OR()] without any argument.
    Whatever the arguments, a compound that a constructor returns has
    at least one component. *)
Theorem Compound_requires_component :
  (∀ operator : CompoundOperator.t,
     Compound_init (inl operator) []
     = Raise (ValueError "Compound() requires at least one condition"))
  ∧ (∀ name operator,
       CompoundOperator.getitem name = Ok operator →
       Compound_init (inr name) []
       = Raise (ValueError "Compound() requires at least one condition"))
  ∧ (∀ operator c, Compound_init operator [] ≠ Ok c)
  ∧ AND [] [] = Raise (ValueError "Compound() requires at least one condition")
  ∧ OR [] [] = Raise (ValueError "Compound() requires at least one condition")
  ∧ (∀ h operator,
       Heap.Compound_init h operator []
       = Raise (ValueError "Compound() requires at least one condition"))
  ∧ (∀ operator comps c,
       Compound_init operator comps = Ok c →
       comps ≠ [] ∧ ∃ op, c = Compound op comps)
  ∧ (∀ comps fields c, AND comps fields = Ok c → components c ≠ [])
  ∧ (∀ comps fields c, OR comps fields = Ok c → components c ≠ [])
  ∧ (∀ args fields c, NOT args fields = Ok c → components c ≠ []).
Proof.
  assert (∀ operator comps c,
            Compound_init operator comps = Ok c →
            comps ≠ [] ∧ ∃ op, c = Compound op comps) as Hinit.
  { intros operator comps c. unfold Compound_init.
    intros (op & _ & Hc)%bind_Ok. destruct comps; [done|].
    simpl in Hc. simplify_eq. eauto. }
  split_and!; try done.
  - intros name operator Hop. unfold Compound_init. by rewrite Hop.
  - intros operator c Hc. by apply Hinit in Hc as [? _].
  - intros comps fields c Hc. unfold AND in Hc.
    by apply Hinit in Hc as [? [op ->]].
  - intros comps fields c Hc. unfold OR in Hc.
    by apply Hinit in Hc as [? [op ->]].
  - intros args fields c Hc. unfold NOT, NOT_body in Hc.
    destruct args as [|component [|? ?]]; [| |done]; case_decide; try done;
      by apply Hinit in Hc as [? [op ->]].
Qed.

Lemma Compound_requires_component_witness :
  Compound_init (inr "OR") []
  = Raise (ValueError "Compound() requires at least one condition")
  ∧ ([Expression "a"] ≠ []
     ∧ ∃ op, Compound CompoundOperator.NOT [Expression "a"] = Compound op [Expression "a"])
  ∧ components (Compound CompoundOperator.AND [Expression "a"; EQ "b" (VInt 1)]) ≠ []
  ∧ components (Compound CompoundOperator.OR [EQ "b" (VInt 1)]) ≠ []
  ∧ components (Compound CompoundOperator.NOT [EQ "b" (VInt 1)]) ≠ [].
Proof.
  pose proof Compound_requires_component
    as (_ & Hname & _ & _ & _ & _ & Hinit & HAND & HOR & HNOT).
  split; [|split; [|split; [|split]]].
  - apply (Hname "OR" CompoundOperator.OR). reflexivity.
  - apply (Hinit (inr "NOT") [Expression "a"] (Compound CompoundOperator.NOT [Expression "a"])).
    reflexivity.
  - apply (HAND [Expression "a"] [("b", VInt 1)]). reflexivity.
  - apply (HOR [] [("b", VInt 1)]). reflexivity.
  - apply (HNOT [] [("b", VInt 1)]). reflexivity.
Defined.

(** ** Flattening on the store *)

Lemma heap_flatten_S fuel h memo self :
  Heap.flatten (S fuel) h memo self =
  match h !! self with
  | None => Raise (DanglingReference self)
  | Some (Heap.OCompound operator comps) =>
      '(h, memo, flattened) ←
        Heap.flatten_loop (Heap.flatten fuel) operator comps h ({[self]} ∪ memo) [];
      '(h, r) ← Heap.Compound_init h operator flattened;
      Ok (h, memo, r)
  | Some _ => Ok (h, memo, self)
  end.
Proof. done. Qed.

Lemma heap_flatten_loop_cons flatten operator item items h memo flattened :
  Heap.flatten_loop flatten operator (item :: items) h memo flattened =
  if decide (item ∈ memo) then Raise (CircularDependency item)
  else match h !! item with
       | None => Raise (DanglingReference item)
       | Some o =>
           if Heap.same_operator_compound operator o
           then
             '(h, memo, r) ← flatten h memo item;
             cs ← Heap.components h r;
             Heap.flatten_loop flatten operator items h memo (flattened ++ cs)
           else
             '(h, _, r) ← flatten h ∅ item;
             Heap.flatten_loop flatten operator items h memo (flattened ++ [r])
       end.
Proof. done. Qed.

(** A call that returned or raised does the same with more fuel. *)
Lemma heap_flatten_loop_fuel_mono
    (f g : list Heap.object → gset nat → nat → result (list Heap.object * gset nat * nat))
    operator items :
  (∀ h memo i, f h memo i ≠ OutOfFuel → g h memo i = f h memo i) →
  ∀ h memo acc,
    Heap.flatten_loop f operator items h memo acc ≠ OutOfFuel →
    Heap.flatten_loop g operator items h memo acc
    = Heap.flatten_loop f operator items h memo acc.
Proof.
  intros Hfg. induction items as [|item items IH]; intros h memo acc; [done|].
  rewrite !heap_flatten_loop_cons. case_decide; [done|].
  destruct (h !! item) as [o|]; [|done].
  destruct (Heap.same_operator_compound operator o).
  - destruct (f h memo item) as [[[h1 memo1] r]| |] eqn:Hf; simpl; [| |done];
      rewrite Hfg, Hf by (by rewrite Hf); simpl; [|done].
    destruct (Heap.components h1 r); simpl; [apply IH|done..].
  - destruct (f h ∅ item) as [[[h1 memo1] r]| |] eqn:Hf; simpl; [| |done];
      rewrite Hfg, Hf by (by rewrite Hf); simpl; [apply IH|done].
Qed.

Lemma heap_flatten_fuel_mono fuel : ∀ fuel' h memo self,
  fuel ≤ fuel' →
  Heap.flatten fuel h memo self ≠ OutOfFuel →
  Heap.flatten fuel' h memo self = Heap.flatten fuel h memo self.
Proof.
  induction fuel as [|fuel IH]; intros fuel' h memo self Hle; [done|].
  destruct fuel' as [|fuel']; [lia|]. rewrite !heap_flatten_S.
  destruct (h !! self) as [[| |operator comps]|]; [done..| |done].
  intros Hres.
  rewrite (heap_flatten_loop_fuel_mono (Heap.flatten fuel) (Heap.flatten fuel')); [done| |].
  - intros h1 memo1 i. apply IH. lia.
  - intros Hloop. by rewrite Hloop in Hres.
Qed.

(** *** The store and the trees *)

(** Objects keep their unfolding when objects are added. *)
Lemma unfolds_mono h h' :
  h `prefix_of` h' → ∀ t i, Heap.unfolds h i t → Heap.unfolds h' i t.
Proof.
  intros Hprefix.
  induction t as [| |operator ts IH] using Condition_ind'; intros i Hi;
    inversion Hi as [| |? ? comps ? Hlookup Hcomps]; subst.
  - constructor. by eapply prefix_lookup_Some.
  - constructor. by eapply prefix_lookup_Some.
  - econstructor; [by eapply prefix_lookup_Some|].
    clear Hi Hlookup. induction Hcomps as [|c t comps ts Hc _ IHcomps]; [constructor|].
    apply Forall_cons in IH as [Ht IH]. constructor; auto.
Qed.

Lemma unfolds_same_operator_compound h i o t operator :
  h !! i = Some o → Heap.unfolds h i t →
  same_operator_compound operator t = Heap.same_operator_compound operator o.
Proof. intros Ho Ht. inversion Ht; by simplify_eq. Qed.

Lemma heap_flatten_loop_refines f operator items :
  refines_flatten f →
  ∀ h memo acc h' memo' flattened,
    Heap.flatten_loop f operator items h memo acc = Ok (h', memo', flattened) →
    h `prefix_of` h'
    ∧ ∃ ts, Forall2 (Heap.unfolds h') items ts
            ∧ ∀ acc_t, Forall2 (Heap.unfolds h') acc acc_t →
                ∃ flattened_t, flatten_loop operator ts acc_t = Ok flattened_t
                               ∧ Forall2 (Heap.unfolds h') flattened flattened_t.
Proof.
  intros Hf. induction items as [|item items IH]; intros h memo acc h' memo' flattened.
  { intros [= <- <- <-]. split; [done|]. exists []. split; [constructor|]. eauto. }
  rewrite heap_flatten_loop_cons. case_decide; [done|].
  destruct (h !! item) as [o|] eqn:Ho; [|done].
  destruct (Heap.same_operator_compound operator o) eqn:Hsame.
  - intros ([[h1 memo1] r] & Hcall & (cs & Hcs & Hloop)%bind_Ok)%bind_Ok.
    apply Hf in Hcall as (Hh1 & t & t' & Ht & Hflat & Ht').
    apply IH in Hloop as (Hh' & ts & Hts & Hacc).
    split; [by etrans|]. exists (t :: ts). split.
    { constructor; [by eapply unfolds_mono|done]. }
    intros acc_t Hacc_t. rewrite flatten_loop_cons.
    rewrite (unfolds_same_operator_compound h1 item o t operator), Hsame, Hflat;
      [|by eapply prefix_lookup_Some|done]. simpl.
    apply Hacc. apply Forall2_app; [done|].
    unfold Heap.components in Hcs. destruct (h1 !! r) as [[| |? cs']|] eqn:Hr; simplify_eq.
    inversion Ht' as [| |? ? ? ts' Hr' Hcs']; simplify_eq. simpl.
    eapply Forall2_impl; [exact Hcs'|]. intros ? ?. by apply unfolds_mono.
  - intros ([[h1 memo1] r] & Hcall & Hloop)%bind_Ok.
    apply Hf in Hcall as (Hh1 & t & t' & Ht & Hflat & Ht').
    apply IH in Hloop as (Hh' & ts & Hts & Hacc).
    split; [by etrans|]. exists (t :: ts). split.
    { constructor; [by eapply unfolds_mono|done]. }
    intros acc_t Hacc_t. rewrite flatten_loop_cons.
    rewrite (unfolds_same_operator_compound h1 item o t operator), Hsame, Hflat;
      [|by eapply prefix_lookup_Some|done]. simpl.
    apply Hacc. apply Forall2_app; [done|].
    constructor; [by eapply unfolds_mono|constructor].
Qed.

(** Whenever [flatten] succeeds on the store, it only adds objects,
    the object it was called on unfolds to a tree, and the object it
    returns unfolds to what [flatten] returns for that tree. *)
Theorem heap_flatten_refines fuel : refines_flatten (Heap.flatten fuel).
Proof.
  induction fuel as [|fuel IH]; intros h memo self h' memo' r; [done|].
  rewrite heap_flatten_S.
  destruct (h !! self) as [[value|cls field value|operator comps]|] eqn:Hself; [| | |done].
  - intros [= <- <- <-]. split; [done|].
    exists (Expression value), (Expression value). by split_and!; [constructor| |constructor].
  - intros [= <- <- <-]. split; [done|]. eexists (Comparison _ _ _), (Comparison _ _ _).
    by split_and!; [constructor| |constructor].
  - intros ([[h1 memo1] flattened] & Hloop & Hinit)%bind_Ok.
    unfold Heap.Compound_init, Heap.alloc in Hinit. case_decide as Hlen; [done|].
    simpl in Hinit. injection Hinit as <- <- <-.
    apply (heap_flatten_loop_refines _ _ _ IH) in Hloop as (Hh1 & ts & Hts & Hacc).
    destruct (Hacc [] ltac:(constructor)) as (flattened_t & Hflat & Hflattened).
    assert (h1 `prefix_of` h1 ++ [Heap.OCompound operator flattened]) as Hh'
      by by apply prefix_app_r.
    split; [by etrans|].
    exists (Compound operator ts), (Compound operator flattened_t). split_and!.
    + econstructor.
      * eapply prefix_lookup_Some; [exact Hself|by etrans].
      * eapply Forall2_impl; [exact Hts|]. intros ? ?. by apply unfolds_mono.
    + apply flatten_Compound_Ok. exists flattened_t. split_and!; [done| |done].
      intros ->. apply Forall2_nil_inv_r in Hflattened as ->. done.
    + econstructor.
      * by rewrite lookup_app_r, Nat.sub_diag.
      * eapply Forall2_impl; [exact Hflattened|]. intros ? ?. by apply unfolds_mono.
Qed.

(** *** Stores that are trees *)

Lemma covers_mono h h' :
  h `prefix_of` h' → ∀ t i ids, Heap.covers h i t ids → Heap.covers h' i t ids.
Proof.
  intros Hprefix.
  induction t as [| |operator ts IH] using Condition_ind'; intros i ids Hi;
    inversion Hi as [| |? ? comps ? idss Hlookup Hcomps]; subst.
  - constructor. by eapply prefix_lookup_Some.
  - constructor. by eapply prefix_lookup_Some.
  - econstructor; [by eapply prefix_lookup_Some|].
    clear Hi Hlookup.
    induction Hcomps as [|c t ids comps ts idss Hc _ IHcomps]; [constructor|].
    apply Forall_cons in IH as [Ht IH]. constructor; auto.
Qed.

Lemma covers_unfolds h : ∀ t i ids, Heap.covers h i t ids → Heap.unfolds h i t.
Proof.
  induction t as [| |operator ts IH] using Condition_ind'; intros i ids Hi;
    inversion Hi as [| |? ? comps ? idss Hlookup Hcomps]; subst.
  - by constructor.
  - by constructor.
  - econstructor; [done|]. clear Hi Hlookup.
    induction Hcomps as [|c t ids comps ts idss Hc _ IHcomps]; [constructor|].
    apply Forall_cons in IH as [Ht IH]. constructor; eauto.
Qed.

(** A compound is the first of the compounds that it covers, a leaf
    covers none. *)
Lemma covers_lookup h i t ids :
  Heap.covers h i t ids →
  ∃ o, h !! i = Some o
       ∧ ∀ operator, same_operator_compound operator t
                     = Heap.same_operator_compound operator o.
Proof. intros Hi. inversion Hi; simplify_eq; eauto. Qed.

Lemma covers_not_in_memo h i t ids memo :
  Heap.covers h i t ids →
  Heap.memo_of_compounds h memo →
  (∀ x, x ∈ ids → x ∉ memo) →
  i ∉ memo.
Proof.
  intros Hi Hmemo Hids Himemo. inversion Hi; simplify_eq.
  - destruct (Hmemo _ Himemo) as (? & ? & ?). congruence.
  - destruct (Hmemo _ Himemo) as (? & ? & ?). congruence.
  - apply (Hids i); [by left|done].
Qed.

Lemma covers_compounds h : ∀ t i ids,
  Heap.covers h i t ids →
  ∀ x, x ∈ ids → ∃ operator comps, h !! x = Some (Heap.OCompound operator comps).
Proof.
  induction t as [| |operator ts IH] using Condition_ind'; intros i ids Hi;
    inversion Hi as [| |? ? comps ? idss Hlookup Hcomps]; subst; intros x Hx.
  - by apply elem_of_nil in Hx.
  - by apply elem_of_nil in Hx.
  - apply elem_of_cons in Hx as [->|Hx]; [eauto|].
    clear Hi Hlookup.
    induction Hcomps as [|c t ids comps ts idss Hc _ IHcomps]; [by apply elem_of_nil in Hx|].
    apply Forall_cons in IH as [Ht IH]. simpl in Hx.
    apply elem_of_app in Hx as [Hx|Hx]; eauto.
Qed.

Lemma memo_of_compounds_mono h h' memo :
  h `prefix_of` h' → Heap.memo_of_compounds h memo → Heap.memo_of_compounds h' memo.
Proof.
  intros Hprefix Hmemo x Hx. destruct (Hmemo x Hx) as (op & comps & Hlookup).
  exists op, comps. by eapply prefix_lookup_Some.
Qed.

Lemma heap_flatten_loop_tree fuel operator : ∀ ts items idss h,
  Forall3 (Heap.covers h) items ts idss →
  Forall (λ t, ∀ h i ids memo,
            Heap.covers h i t ids → NoDup ids → (∀ x, x ∈ ids → x ∉ memo) →
            Heap.memo_of_compounds h memo →
            flattens_as t h memo ids (Heap.flatten fuel h memo i)) ts →
  ∀ memo acc acc_t,
    NoDup (concat idss) → (∀ x, x ∈ concat idss → x ∉ memo) →
    Heap.memo_of_compounds h memo →
    Forall2 (Heap.unfolds h) acc acc_t →
    match flatten_loop operator ts acc_t with
    | Ok flattened_t =>
        ∃ h' memo' flattened,
          Heap.flatten_loop (Heap.flatten fuel) operator items h memo acc
          = Ok (h', memo', flattened)
          ∧ h `prefix_of` h'
          ∧ Forall2 (Heap.unfolds h') flattened flattened_t
          ∧ memo' ⊆ memo ∪ list_to_set (concat idss)
    | Raise e =>
        Heap.flatten_loop (Heap.flatten fuel) operator items h memo acc = Raise e
    | OutOfFuel => False
    end.
Proof.
  induction ts as [|t ts IHts]; intros items idss h Hitems Hts memo acc acc_t Hnodup Hfresh Hmemo Hacc.
  { inversion Hitems; subst. simpl. exists h, memo, acc. split_and!; [done..|set_solver]. }
  apply Forall3_cons_inv_m in Hitems
    as (item & items' & ids & idss' & -> & -> & Hitem & Hitems).
  apply Forall_cons in Hts as [Ht Hts]. simpl in Hnodup, Hfresh.
  apply NoDup_app in Hnodup as (Hnodup_ids & Hdisjoint & Hnodup_rest).
  rewrite heap_flatten_loop_cons, flatten_loop_cons.
  rewrite decide_False; last first.
  { eapply covers_not_in_memo; [done..|]. intros x Hx. apply Hfresh. set_solver. }
  destruct (covers_lookup _ _ _ _ Hitem) as (o & -> & Hsame). rewrite <-Hsame.
  destruct (same_operator_compound operator t) eqn:Hop.
  - assert (flattens_as t h memo ids (Heap.flatten fuel h memo item)) as Hcall.
    { apply Ht; [done..| |done]. intros x Hx. apply Hfresh. set_solver. }
    unfold flattens_as in Hcall.
    destruct (flatten t) as [t'|e|] eqn:Hflat; simpl; [| |done].
    + destruct Hcall as (h1 & memo1 & r & -> & Hh1 & Hr & Hmemo1). simpl.
      destruct t as [| |op ts0]; [done..|]. simpl in Hop.
      apply bool_decide_eq_true in Hop as ->.
      apply flatten_Compound_Ok in Hflat as (fl' & _ & _ & ->).
      inversion Hr as [| |? ? cs ? Hlookup Hcs]; subst.
      unfold Heap.components. rewrite Hlookup. simpl.
      specialize (IHts items' idss' h1).
      opose proof* (IHts _ Hts memo1 (acc ++ cs) (acc_t ++ fl')) as IH; [| | | | |].
      { eapply Forall3_impl; [exact Hitems|]. intros ? ? ?. by apply covers_mono. }
      { done. }
      { intros x Hx Hx1. apply Hmemo1 in Hx1. apply elem_of_union in Hx1 as [Hx1|Hx1].
        - apply (Hfresh x); [set_solver|done].
        - apply elem_of_list_to_set in Hx1. by apply (Hdisjoint x). }
      { intros x Hx. apply Hmemo1 in Hx. apply elem_of_union in Hx as [Hx|Hx].
        - by eapply memo_of_compounds_mono.
        - apply elem_of_list_to_set in Hx.
          destruct (covers_compounds _ _ _ _ Hitem x Hx) as (op & comps & ?).
          exists op, comps. by eapply prefix_lookup_Some. }
      { apply Forall2_app; [|done].
        eapply Forall2_impl; [exact Hacc|]. intros ? ?. by apply unfolds_mono. }
      destruct (flatten_loop operator ts (acc_t ++ fl')) as [flattened_t|e|]; [| |done].
      * destruct IH as (h' & memo' & flattened & -> & Hh' & Hflattened & Hmemo').
        exists h', memo', flattened. split_and!; [done|by etrans|done|].
        rewrite list_to_set_app_L. set_solver.
      * done.
    + by rewrite Hcall.
  - assert (flattens_as t h ∅ ids (Heap.flatten fuel h ∅ item)) as Hcall.
    { apply Ht; [done..|set_solver|by intros ? ?%not_elem_of_empty]. }
    unfold flattens_as in Hcall.
    destruct (flatten t) as [t'|e|] eqn:Hflat; simpl; [| |done].
    + destruct Hcall as (h1 & memo1 & r & -> & Hh1 & Hr & Hmemo1). simpl.
      specialize (IHts items' idss' h1).
      opose proof* (IHts _ Hts memo (acc ++ [r]) (acc_t ++ [t'])) as IH; [| | | | |].
      { eapply Forall3_impl; [exact Hitems|]. intros ? ? ?. by apply covers_mono. }
      { done. }
      { intros x Hx. apply Hfresh. set_solver. }
      { by eapply memo_of_compounds_mono. }
      { apply Forall2_app; [|by repeat constructor].
        eapply Forall2_impl; [exact Hacc|]. intros ? ?. by apply unfolds_mono. }
      destruct (flatten_loop operator ts (acc_t ++ [t'])) as [flattened_t|e|]; [| |done].
      * destruct IH as (h' & memo' & flattened & -> & Hh' & Hflattened & Hmemo').
        exists h', memo', flattened. split_and!; [done|by etrans|done|].
        rewrite list_to_set_app_L. set_solver.
      * done.
    + by rewrite Hcall.
Qed.

(** On a store that is a tree below [i], [flatten] does on [i] what
    the [flatten] of trees does on the tree that [i] unfolds to, for
    every [memo] without the compounds below [i] and with fuel from
    the rank of the tree on. *)
Theorem heap_flatten_tree : ∀ t fuel h i ids memo,
  Heap.covers h i t ids → NoDup ids → (∀ x, x ∈ ids → x ∉ memo) →
  Heap.memo_of_compounds h memo →
  rank t ≤ fuel →
  flattens_as t h memo ids (Heap.flatten fuel h memo i).
Proof.
  induction t as [value|cls field value|operator ts IH] using Condition_ind';
    intros fuel h i ids memo Hi Hnodup Hfresh Hmemo Hfuel;
    (destruct fuel as [|fuel];
     [exfalso; revert Hfuel;
      match goal with |- rank ?c ≤ 0 → _ => pose proof (rank_pos c) end; lia|]).
  - inversion Hi as [? ? Hlookup| |]; subst. rewrite heap_flatten_S, Hlookup.
    exists h, memo, i. split_and!; [done|done|by constructor|set_solver].
  - inversion Hi as [|? ? ? ? Hlookup|]; subst. rewrite heap_flatten_S, Hlookup.
    exists h, memo, i. split_and!; [done|done|by constructor|set_solver].
  - inversion Hi as [| |? ? comps ? idss Hlookup Hcomps]; subst.
    rewrite heap_flatten_S, Hlookup.
    apply rank_Compound_le in Hfuel. apply NoDup_cons in Hnodup as [Hi_fresh Hnodup].
    opose proof* (heap_flatten_loop_tree fuel operator ts comps idss h Hcomps _
                    ({[i]} ∪ memo) [] [] Hnodup) as Hloop.
    { apply Forall_forall. intros t Ht h0 i0 ids0 memo0 ? ? ? ?.
      eapply Forall_forall in IH; [|exact Ht]. eapply Forall_forall in Hfuel; [|exact Ht].
      by apply IH. }
    { intros x Hx [->%elem_of_singleton|Hx']%elem_of_union; [done|].
      apply (Hfresh x); [by right|done]. }
    { intros x [->%elem_of_singleton|Hx]%elem_of_union; eauto. }
    { constructor. }
    unfold flattens_as. rewrite flatten_Compound.
    destruct (flatten_loop operator ts []) as [flattened_t|e|]; simpl; [| |done].
    + destruct Hloop as (h1 & memo1 & flattened & -> & Hh1 & Hflattened & Hmemo1). simpl.
      unfold Compound_init, Heap.Compound_init, Heap.alloc. simpl.
      rewrite (Forall2_length _ _ _ Hflattened).
      case_decide; simpl; [done|].
      exists (h1 ++ [Heap.OCompound operator flattened]), memo1, (length h1).
      assert (h1 `prefix_of` h1 ++ [Heap.OCompound operator flattened])
        by by apply prefix_app_r.
      split_and!; [done|by etrans| |set_solver].
      econstructor; [by rewrite lookup_app_r, Nat.sub_diag|].
      eapply Forall2_impl; [exact Hflattened|]. intros ? ?. by apply unfolds_mono.
    + by rewrite Hloop.
Qed.


(** So [flatten], called without [memo] on an object below which the
    store is a tree of compounds with components, returns, and what
    it returns unfolds to the flattened tree: [CircularDependency] is
    not raised. *)
Corollary heap_flatten_tree_shaped h i :
  Heap.tree_shaped h i →
  ∃ t, Heap.unfolds h i t
       ∧ (well_formed t = true →
          ∃ t', flatten t = Ok t'
                ∧ ∀ fuel, rank t ≤ fuel →
                    ∃ h' memo' r, Heap.flatten fuel h ∅ i = Ok (h', memo', r)
                                  ∧ Heap.unfolds h' r t').
Proof.
  intros (t & ids & Hi & Hnodup). exists t. split; [by eapply covers_unfolds|].
  intros [t' Hflat]%flatten_well_formed. exists t'. split; [done|].
  intros fuel Hfuel.
  opose proof* (heap_flatten_tree t fuel h i ids ∅ Hi Hnodup) as Hcall; [| |done|].
  { by intros ? ? ?%not_elem_of_empty. }
  { by intros ? ?%not_elem_of_empty. }
  unfold flattens_as in Hcall. rewrite Hflat in Hcall.
  destruct Hcall as (h' & memo' & r & ? & _ & ? & _). eauto.
Qed.

(** *** What [flatten] returns is a tree of new compounds *)

Lemma unfolds_functional h : ∀ t i t',
  Heap.unfolds h i t → Heap.unfolds h i t' → t = t'.
Proof.
  induction t as [| |operator ts IH] using Condition_ind'; intros i t' Ht Ht';
    inversion Ht as [| |? ? comps ? Hlookup Hcomps]; subst;
    inversion Ht' as [| |? ? comps' ts' Hlookup' Hcomps']; simplify_eq; [done..|].
  f_equal. clear Ht Ht' Hlookup. revert ts' Hcomps'.
  induction Hcomps as [|c t comps ts Hc _ IHcomps]; intros ts' Hcomps';
    inversion Hcomps'; subst; [done|].
  apply Forall_cons in IH as [Ht IH]. f_equal; eauto.
Qed.

Lemma new_trees_app h h1 from acc acc_t items ts :
  h `prefix_of` h1 → from ≤ length h →
  new_trees h from acc acc_t →
  new_trees h1 (length h) items ts →
  new_trees h1 from (acc ++ items) (acc_t ++ ts).
Proof.
  intros Hprefix Hfrom (idss & Hacc & Hnodup & Hbounds) (idss' & Hitems & Hnodup' & Hbounds').
  rewrite Forall_forall in Hbounds, Hbounds'.
  exists (idss ++ idss'). rewrite concat_app. split_and!.
  - apply Forall3_app; [|done].
    eapply Forall3_impl; [exact Hacc|]. intros ? ? ?. by apply covers_mono.
  - apply NoDup_app. split_and!; [done| |done].
    intros x Hx Hx'. specialize (Hbounds _ Hx). specialize (Hbounds' _ Hx'). simpl in *. lia.
  - apply Forall_forall. intros x [Hx|Hx]%elem_of_app.
    + specialize (Hbounds _ Hx). apply prefix_length in Hprefix. simpl in *. lia.
    + specialize (Hbounds' _ Hx). simpl in *. lia.
Qed.

Lemma heap_flatten_loop_new_trees f operator items :
  returns_new_tree f →
  ∀ h memo acc h' memo' flattened from acc_t,
    Heap.flatten_loop f operator items h memo acc = Ok (h', memo', flattened) →
    from ≤ length h →
    new_trees h from acc acc_t →
    h `prefix_of` h' ∧ ∃ flattened_t, new_trees h' from flattened flattened_t.
Proof.
  intros Hf. induction items as [|item items IH];
    intros h memo acc h' memo' flattened from acc_t.
  { intros [= <- <- <-] _ Hacc. eauto. }
  rewrite heap_flatten_loop_cons. case_decide; [done|].
  destruct (h !! item) as [o|] eqn:Ho; [|done].
  destruct (Heap.same_operator_compound operator o) eqn:Hsame.
  - intros ([[h1 memo1] r] & Hcall & (cs & Hcs & Hloop)%bind_Ok)%bind_Ok Hfrom Hacc.
    apply Hf in Hcall as (Hh1 & t' & idss & Hr & Hnodup & Hbounds).
    pose proof (prefix_length _ _ Hh1).
    unfold Heap.components in Hcs. destruct (h1 !! r) as [[| |? cs']|] eqn:Hr'; simplify_eq.
    inversion Hr as [|? ? ids ? ? ? Hcover Hnil]; subst. inversion Hnil; subst.
    inversion Hcover as [| |? ? ? ts' idss' Hlookup Hcs']; simplify_eq.
    simpl in Hnodup, Hbounds. rewrite app_nil_r in Hnodup, Hbounds.
    apply NoDup_cons in Hnodup as [_ Hnodup]. apply Forall_cons in Hbounds as [_ Hbounds].
    eapply IH in Hloop as [Hh' Hflattened]; [split; [by etrans|exact Hflattened]|lia|].
    eapply new_trees_app; [done..|]. by exists idss'.
  - intros ([[h1 memo1] r] & Hcall & Hloop)%bind_Ok Hfrom Hacc.
    apply Hf in Hcall as (Hh1 & t' & Hr).
    pose proof (prefix_length _ _ Hh1).
    eapply IH in Hloop as [Hh' Hflattened]; [split; [by etrans|exact Hflattened]|lia|].
    by eapply new_trees_app.
Qed.

(** What [flatten] returns covers a tree whose compounds were all
    made by the call. *)
Lemma heap_flatten_returns_new_tree fuel : returns_new_tree (Heap.flatten fuel).
Proof.
  induction fuel as [|fuel IH]; intros h memo self h' memo' r; [done|].
  rewrite heap_flatten_S.
  destruct (h !! self) as [[value|cls field value|operator comps]|] eqn:Hself; [| | |done].
  - intros [= <- <- <-]. split; [done|]. exists (Expression value), [[]].
    split_and!; [by repeat constructor|constructor|constructor].
  - intros [= <- <- <-]. split; [done|]. exists (Comparison cls field value), [[]].
    split_and!; [by repeat constructor|constructor|constructor].
  - intros ([[h1 memo1] flattened] & Hloop & Hinit)%bind_Ok.
    unfold Heap.Compound_init, Heap.alloc in Hinit. case_decide as Hlen; [done|].
    simpl in Hinit. injection Hinit as <- <- <-.
    eapply (heap_flatten_loop_new_trees _ _ _ IH _ _ _ _ _ _ (length h) [])
      in Hloop as (Hh1 & flattened_t & idss & Hflattened & Hnodup & Hbounds);
      [|done|by exists []; split_and!; constructor].
    assert (h1 `prefix_of` h1 ++ [Heap.OCompound operator flattened]) as Hh'
      by by apply prefix_app_r.
    split; [by etrans|].
    exists (Compound operator flattened_t), [length h1 :: concat idss].
    simpl. rewrite app_nil_r, length_app. simpl.
    rewrite Forall_forall in Hbounds. pose proof (prefix_length _ _ Hh1).
    split_and!.
    + repeat constructor. econstructor; [by rewrite lookup_app_r, Nat.sub_diag|].
      eapply Forall3_impl; [exact Hflattened|]. intros ? ? ?. by apply covers_mono.
    + apply NoDup_cons. split; [|done]. intros Hin. specialize (Hbounds _ Hin). simpl in *. lia.
    + apply Forall_cons. split; [lia|]. apply Forall_forall. intros x Hx.
      specialize (Hbounds _ Hx). simpl in *. lia.
Qed.

(** Flattening on the store is idempotent: what a successful call
    returns is flattened again to an object that unfolds to the same
    tree. *)
Theorem heap_flatten_idempotent fuel h memo self h1 memo1 r1 :
  Heap.flatten fuel h memo self = Ok (h1, memo1, r1) →
  ∃ t t',
    Heap.unfolds h1 self t ∧ flatten t = Ok t' ∧ Heap.unfolds h1 r1 t'
    ∧ ∀ fuel', rank t' ≤ fuel' →
        ∃ h2 memo2 r2,
          Heap.flatten fuel' h1 ∅ r1 = Ok (h2, memo2, r2) ∧ Heap.unfolds h2 r2 t'.
Proof.
  intros Hcall.
  destruct (heap_flatten_refines _ _ _ _ _ _ _ Hcall) as (_ & t & t' & Ht & Hflat & Hr1).
  destruct (heap_flatten_returns_new_tree _ _ _ _ _ _ _ Hcall)
    as (_ & t'' & idss & Hcover & Hnodup & _).
  inversion Hcover as [|? ? ids ? ? ? Hcover' Hnil]; subst. inversion Hnil; subst.
  simpl in Hnodup. rewrite app_nil_r in Hnodup.
  assert (t'' = t') as -> by (eapply unfolds_functional; [by eapply covers_unfolds|done]).
  exists t, t'. split_and!; [done..|]. intros fuel' Hfuel'.
  opose proof* (heap_flatten_tree t' fuel' h1 r1 ids ∅ Hcover' Hnodup) as Hagain; [| |done|].
  { by intros ? ? ?%not_elem_of_empty. }
  { by intros ? ?%not_elem_of_empty. }
  unfold flattens_as in Hagain.
  rewrite (flatten_of_single_level t') in Hagain by by eapply flatten_single_level.
  destruct Hagain as (h2 & memo2 & r2 & ? & _ & ? & _). eauto.
Qed.

(** *** Cycles and shared objects *)

(** A store whose compounds only have components that were made
    before them has no cycle. *)
Lemma acyclic_of_older_components (h : list Heap.object) :
  (∀ i operator comps j,
     h !! i = Some (Heap.OCompound operator comps) → j ∈ comps → j < i) →
  Heap.acyclic h.
Proof.
  intros Holder i Hi.
  assert (∀ i j, Heap.includes h i j → j < i) as Hlt.
  { clear i Hi. intros i j Hij. induction Hij as [i j (op & comps & Hi & Hj)|i k j (op & comps & Hi & Hk) _ IH].
    - by eapply Holder.
    - specialize (Holder _ _ _ _ Hi Hk). lia. }
  specialize (Hlt _ _ Hi). lia.
Qed.

Ltac older_components_from i Hi Hj :=
  simpl in Hi;
  first
    [ by rewrite lookup_nil in Hi
    | destruct i as [|i];
      [simplify_eq/=; set_unfold; lia | older_components_from i Hi Hj] ].

Ltac older_components :=
  let i := fresh "i" in
  let Hi := fresh "Hi" in
  let Hj := fresh "Hj" in
  intros i ? ? ? Hi Hj; older_components_from i Hi Hj.

(** The example of the docstring of [Compound.flatten]: a compound
    that is its own component raises [CircularDependency] with that
    compound. *)
Lemma heap_flatten_circular_not :
  ∃ h circular,
    Heap.circular_not = Ok (h, circular)
    ∧ Heap.includes h circular circular
    ∧ ∀ fuel memo,
        Heap.flatten (1 + fuel) h memo circular = Raise (CircularDependency circular).
Proof.
  eexists _, _. split_and!; [done| |].
  - apply tc_once. by exists CompoundOperator.NOT, [1]; split; [|by left].
  - intros fuel memo. simpl. rewrite decide_True by (set_unfold; lia). done.
Qed.

(** A cycle through compounds with the same operator is detected. *)
Lemma heap_flatten_cycle_same_operator :
  ∃ h a,
    Heap.cycle_same_operator = Ok (h, a)
    ∧ Heap.includes h a a
    ∧ ∀ fuel, Heap.flatten (2 + fuel) h ∅ a = Raise (CircularDependency a).
Proof.
  eexists _, _. split_and!; [done| |].
  - apply (tc_l _ _ 2); [by exists CompoundOperator.AND, [2]; split; [|by left]|].
    apply tc_once. by exists CompoundOperator.AND, [1]; split; [|by left].
  - intros fuel.
    rewrite (heap_flatten_fuel_mono 2) by (lia || by vm_compute). by vm_compute.
Qed.

(** C1: on [a = AND(x); b = OR(a); a.components = [b]], where [a]
    includes itself through a compound with another operator,
    [a.flatten()] neither returns nor raises, whatever the fuel: the
    recursion has no bound and [CircularDependency] is not raised. *)
Theorem heap_flatten_cycle_across_operators :
  ∃ h a,
    Heap.cycle_across_operators = Ok (h, a)
    ∧ Heap.includes h a a
    ∧ (∀ fuel, Heap.flatten fuel h ∅ a = OutOfFuel)
    ∧ (∀ fuel item, Heap.flatten fuel h ∅ a ≠ Raise (CircularDependency item)).
Proof.
  set (h := [Heap.OExpression "x"; Heap.OCompound CompoundOperator.AND [2];
             Heap.OCompound CompoundOperator.OR [1]]).
  exists h, 1. split; [done|].
  assert (∀ fuel, Heap.flatten fuel h ∅ 1 = OutOfFuel
                  ∧ Heap.flatten fuel h ∅ 2 = OutOfFuel) as Hdiverges.
  { induction fuel as [|fuel [IH1 IH2]]; [done|].
    rewrite !heap_flatten_S. simpl lookup. cbv iota beta.
    rewrite !heap_flatten_loop_cons. simpl lookup.
    rewrite !decide_False by (set_unfold; lia). simpl. by rewrite IH1, IH2. }
  split_and!.
  - apply (tc_l _ _ 2); [by exists CompoundOperator.AND, [2]; split; [|by left]|].
    apply tc_once. by exists CompoundOperator.OR, [1]; split; [|by left].
  - intros fuel. apply Hdiverges.
  - intros fuel item. by rewrite (proj1 (Hdiverges fuel)).
Qed.

(** C2: the [memo] of [flatten] is not scoped to the path. On
    [x = AND(EQ("a", 1), EQ("b", 2)); root = AND(x, x)], a store
    without any cycle, [root.flatten()] raises [CircularDependency]
    with [x]: the second component finds the mark that the first one
    left. The same happens when [x] is a component of two compounds
    [AND(x, c)] and [AND(x, d)] that are the components of [root]. A
    leaf, and a compound below compounds with another operator, can
    be used twice: [AND(OR(a, a), OR(a, a))] with one object
    [OR(a, a)] is flattened. *)
Theorem heap_flatten_shared_compound :
  (∃ h root x,
     Heap.shared_siblings = Ok (h, root, x)
     ∧ Heap.acyclic h
     ∧ ∀ fuel, Heap.flatten (3 + fuel) h ∅ root = Raise (CircularDependency x))
  ∧ (∃ h root x,
       Heap.shared_under_parents = Ok (h, root, x)
       ∧ Heap.acyclic h
       ∧ ∀ fuel, Heap.flatten (4 + fuel) h ∅ root = Raise (CircularDependency x))
  ∧ (∃ h root,
       Heap.shared_leaf = Ok (h, root)
       ∧ Heap.acyclic h
       ∧ ∀ fuel, ∃ h' memo' r,
           Heap.flatten (3 + fuel) h ∅ root = Ok (h', memo', r)
           ∧ Heap.unfolds h' r
               (Compound CompoundOperator.AND
                  [Compound CompoundOperator.OR [EQ "a" (VInt 1); EQ "a" (VInt 1)];
                   Compound CompoundOperator.OR [EQ "a" (VInt 1); EQ "a" (VInt 1)]])).
Proof.
  split_and!.
  - eexists _, _, _. split_and!; [done| |].
    + apply acyclic_of_older_components. older_components.
    + intros fuel.
      rewrite (heap_flatten_fuel_mono 3) by (lia || by vm_compute). by vm_compute.
  - eexists _, _, _. split_and!; [done| |].
    + apply acyclic_of_older_components. older_components.
    + intros fuel.
      rewrite (heap_flatten_fuel_mono 4) by (lia || by vm_compute). by vm_compute.
  - eexists _, _. split_and!; [done| |].
    + apply acyclic_of_older_components. older_components.
    + intros fuel. eexists _, _, _.
      rewrite (heap_flatten_fuel_mono 3) by (lia || by vm_compute).
      split; [by vm_compute|].
      repeat (econstructor; try done).
Qed.

(** ** Flattening merges and is idempotent *)

(** C3: the nested AND of the docstring flattens to one AND with the
    four components [EQ a], [EQ b], [EQ c] and the OR, in this order,
    as a tree and as objects of the store. In general a compound
    whose only component is a compound with the same operator
    flattens to what that component flattens to: the result is
    single-level, and when the component is single-level already the
    result holds exactly its components. *)
Theorem flatten_merging :
  (Examples.nested_and ≫= flatten) =
    Ok (Compound CompoundOperator.AND
          [EQ "a" (VStr "a"); EQ "b" (VStr "b"); EQ "c" (VStr "c");
           Compound CompoundOperator.OR [EQ "d" (VStr "d"); EQ "e" (VStr "e")]])
  ∧ (∃ h root,
       Heap.nested_and = Ok (h, root)
       ∧ ∀ fuel, ∃ h' memo' r,
           Heap.flatten (4 + fuel) h ∅ root = Ok (h', memo', r)
           ∧ Heap.unfolds h' r
               (Compound CompoundOperator.AND
                  [EQ "a" (VStr "a"); EQ "b" (VStr "b"); EQ "c" (VStr "c");
                   Compound CompoundOperator.OR [EQ "d" (VStr "d"); EQ "e" (VStr "e")]]))
  ∧ (∀ operator comps,
       flatten (Compound operator [Compound operator comps])
       = flatten (Compound operator comps))
  ∧ (∀ operator comps r,
       flatten (Compound operator [Compound operator comps]) = Ok r →
       single_level r = true
       ∧ ∃ flattened, r = Compound operator flattened
           ∧ flatten_loop operator comps [] = Ok flattened)
  ∧ (∀ operator comps,
       single_level (Compound operator comps) = true →
       flatten (Compound operator [Compound operator comps])
       = Ok (Compound operator comps)).
Proof.
  assert (∀ operator comps,
            flatten (Compound operator [Compound operator comps])
            = flatten (Compound operator comps)) as Heq.
  { intros operator comps. rewrite (flatten_Compound operator [_]).
    rewrite flatten_loop_cons. simpl same_operator_compound.
    rewrite bool_decide_eq_true_2 by done.
    destruct (flatten (Compound operator comps)) as [r| |] eqn:Hr; [|done..].
    apply flatten_Compound_Ok in Hr as (fl & _ & Hne & ->). simpl.
    by apply Compound_init_Ok. }
  split_and!; [done| |done| |].
  - eexists _, _. split; [done|]. intros fuel. eexists _, _, _.
    rewrite (heap_flatten_fuel_mono 4) by (lia || by vm_compute).
    split; [by vm_compute|]. repeat (econstructor; try done).
  - intros operator comps r. rewrite Heq. intros Hr. split.
    + by eapply flatten_single_level.
    + apply flatten_Compound_Ok in Hr as (fl & ? & _ & ->). eauto.
  - intros operator comps Hsl. rewrite Heq. by apply flatten_of_single_level.
Qed.

Lemma flatten_merging_witness :
  flatten (Compound CompoundOperator.OR
             [Compound CompoundOperator.OR [Expression "x"; Expression "y"]])
  = Ok (Compound CompoundOperator.OR [Expression "x"; Expression "y"])
  ∧ (single_level (Compound CompoundOperator.AND [Expression "x"; Expression "y"]) = true
     ∧ ∃ flattened,
         Compound CompoundOperator.AND [Expression "x"; Expression "y"]
         = Compound CompoundOperator.AND flattened
         ∧ flatten_loop CompoundOperator.AND
             [Compound CompoundOperator.AND [Expression "x"]; Expression "y"] []
           = Ok flattened).
Proof.
  split.
  - apply (proj2 (proj2 (proj2 (proj2 flatten_merging)))). reflexivity.
  - apply (proj1 (proj2 (proj2 (proj2 flatten_merging))) CompoundOperator.AND
             [Compound CompoundOperator.AND [Expression "x"]; Expression "y"]).
    reflexivity.
Defined.

(** C4: when [flatten] succeeds on [T] with [F], it succeeds on [F]
    and returns [F] again, so that [flatten(flatten(T))] and
    [flatten(T)] are rendered to the same string by every renderer.
    On the store, where [flatten] makes a new object each time: when
    it succeeds on an object, it succeeds on the object it returned,
    and the two objects returned unfold to the same tree. *)
Theorem flatten_idempotent_rendering :
  (∀ T F,
     flatten T = Ok F →
     ∃ FF, flatten F = Ok FF ∧ FF = F
           ∧ ∀ self, to_str self FF = to_str self F
                     ∧ ∀ fuel, to_str_fuel fuel self FF = to_str_fuel fuel self F)
  ∧ (∀ fuel h memo T h1 memo1 F,
       Heap.flatten fuel h memo T = Ok (h1, memo1, F) →
       ∃ t, Heap.unfolds h1 F t
            ∧ ∀ fuel', rank t ≤ fuel' →
                ∃ h2 memo2 FF,
                  Heap.flatten fuel' h1 ∅ F = Ok (h2, memo2, FF)
                  ∧ Heap.unfolds h2 FF t
                  ∧ Heap.unfolds h2 F t).
Proof.
  split.
  - intros T F HF. exists F. split_and!; [|done..].
    by eapply flatten_of_single_level, flatten_single_level.
  - intros fuel h memo T h1 memo1 F Hcall.
    destruct (heap_flatten_idempotent _ _ _ _ _ _ _ Hcall) as (_ & t & _ & _ & HF & Hagain).
    exists t. split; [done|]. intros fuel' Hfuel'.
    destruct (Hagain fuel' Hfuel') as (h2 & memo2 & FF & Hcall' & HFF).
    exists h2, memo2, FF. split_and!; [done..|].
    eapply unfolds_mono; [|done]. by eapply heap_flatten_refines.
Qed.

Lemma flatten_idempotent_rendering_witness :
  (∃ FF, flatten (Compound CompoundOperator.AND [Expression "x"; Expression "y"]) = Ok FF
         ∧ FF = Compound CompoundOperator.AND [Expression "x"; Expression "y"]
         ∧ ∀ self,
             to_str self FF
             = to_str self (Compound CompoundOperator.AND [Expression "x"; Expression "y"])
             ∧ ∀ fuel,
                 to_str_fuel fuel self FF
                 = to_str_fuel fuel self
                     (Compound CompoundOperator.AND [Expression "x"; Expression "y"]))
  ∧ (∃ t, Heap.unfolds
            [Heap.OExpression "x"; Heap.OCompound CompoundOperator.AND [0];
             Heap.OCompound CompoundOperator.AND [1; 0];
             Heap.OCompound CompoundOperator.AND [0];
             Heap.OCompound CompoundOperator.AND [0; 0]] 4 t
          ∧ ∀ fuel', rank t ≤ fuel' →
              ∃ h2 memo2 FF,
                Heap.flatten fuel'
                  [Heap.OExpression "x"; Heap.OCompound CompoundOperator.AND [0];
                   Heap.OCompound CompoundOperator.AND [1; 0];
                   Heap.OCompound CompoundOperator.AND [0];
                   Heap.OCompound CompoundOperator.AND [0; 0]] ∅ 4
                = Ok (h2, memo2, FF)
                ∧ Heap.unfolds h2 FF t
                ∧ Heap.unfolds h2 4 t).
Proof.
  split.
  - apply (proj1 flatten_idempotent_rendering
             (Compound CompoundOperator.AND
                [Compound CompoundOperator.AND [Expression "x"]; Expression "y"])).
    reflexivity.
  - apply (proj2 flatten_idempotent_rendering 3
             [Heap.OExpression "x"; Heap.OCompound CompoundOperator.AND [0];
              Heap.OCompound CompoundOperator.AND [1; 0]]
             ∅ 2 _ ({[1]} ∪ ({[2]} ∪ ∅))).
    vm_compute. reflexivity.
Defined.

(** * Further properties *)

(** ** What [flatten] keeps and when it succeeds *)


Lemma flatten_loop_leaves operator items :
  Forall (λ c, ∀ r, flatten c = Ok r → leaves r = leaves c) items →
  ∀ acc flattened,
    flatten_loop operator items acc = Ok flattened →
    concat (map leaves flattened) = concat (map leaves acc) ++ concat (map leaves items).
Proof.
  induction 1 as [|item items Hitem _ IH]; intros acc flattened; simpl.
  { intros [= <-]. by rewrite app_nil_r. }
  destruct (same_operator_compound operator item) eqn:Hsame;
    intros (r & Hr & Hloop%IH)%bind_Ok; rewrite Hloop, map_app, concat_app, <-app_assoc;
    f_equal; f_equal; rewrite <-(Hitem _ Hr).
  - destruct item as [| |op comps]; [done..|].
    by apply flatten_Compound_Ok in Hr as (fl & _ & _ & ->).
  - simpl. by rewrite app_nil_r.
Qed.

Lemma flatten_leaves c r : flatten c = Ok r → leaves r = leaves c.
Proof.
  revert r. induction c as [| |operator comps IH] using Condition_ind'; intros r.
  - by intros [= <-].
  - by intros [= <-].
  - intros (fl & Hloop & _ & ->)%flatten_Compound_Ok.
    by apply (flatten_loop_leaves _ _ IH) in Hloop.
Qed.



Lemma flatten_Raise c e : flatten c = Raise e → e = no_condition.
Proof.
  revert e. induction c as [| |operator comps IH] using Condition_ind'; intros e; [done..|].
  rewrite flatten_Compound.
  destruct (flatten_loop operator comps []) as [fl|e'|] eqn:Hloop; simpl.
  - unfold Compound_init. simpl. case_decide; [|done]. by intros [= <-].
  - intros [= ->]. revert Hloop. generalize (@nil Condition) as acc.
    induction IH as [|item items Hitem _ IHitems]; intros acc; [done|].
    rewrite flatten_loop_cons.
    destruct (same_operator_compound operator item), (flatten item) as [r|e''|] eqn:Hr;
      simpl; try done; eauto; intros [= ->]; eauto.
  - done.
Qed.

(** X1: the flattened condition has the leaves of the condition, the
    same objects in the same order from left to right: flattening
    neither drops, nor repeats, nor reorders a comparison or an
    expression. *)
Theorem flatten_keeps_leaves c r :
  flatten c = Ok r → leaves r = leaves c.
Proof. apply flatten_leaves. Qed.

Lemma flatten_keeps_leaves_witness :
  leaves (Compound CompoundOperator.OR [Expression "x"; EQ "y" VNone; Expression "z"])
  = leaves (Compound CompoundOperator.OR
              [Compound CompoundOperator.OR [Expression "x"; EQ "y" VNone];
               Expression "z"]).
Proof. apply flatten_keeps_leaves. reflexivity. Defined.



(** X3: in what [flatten] returns no compound, at any depth, has a
    component that is a compound with its own operator; and the
    conditions that [flatten] returns unchanged are exactly those. *)
Theorem flatten_fixed_points c :
  (∀ r, flatten c = Ok r → single_level r = true)
  ∧ (flatten c = Ok c ↔ single_level c = true).
Proof.
  split; [intros r; apply flatten_single_level|].
  split; [apply flatten_single_level|apply flatten_of_single_level].
Qed.

Lemma flatten_fixed_points_witness :
  single_level (Compound CompoundOperator.OR [Expression "x"; Expression "y"]) = true
  ∧ flatten (Compound CompoundOperator.AND
               [Compound CompoundOperator.OR [Expression "x"]; Expression "y"])
    = Ok (Compound CompoundOperator.AND
            [Compound CompoundOperator.OR [Expression "x"]; Expression "y"]).
Proof.
  split.
  - apply (proj1 (flatten_fixed_points
                    (Compound CompoundOperator.OR
                       [Compound CompoundOperator.OR [Expression "x"]; Expression "y"]))).
    reflexivity.
  - apply (proj2 (flatten_fixed_points _)). reflexivity.
Defined.

Lemma depth_Compound_le operator comps n :
  depth (Compound operator comps) ≤ S n ↔ Forall (λ item, depth item ≤ n) comps.
Proof.
  simpl. rewrite <-Nat.succ_le_mono.
  induction comps as [|item items IH]; simpl.
  - split; [constructor|lia].
  - rewrite Forall_cons, <-IH. lia.
Qed.

Lemma flatten_loop_depth n operator items :
  Forall (λ c, ∀ m r, depth c ≤ m → flatten c = Ok r → depth r ≤ m) items →
  Forall (λ item, depth item ≤ n) items →
  ∀ acc flattened,
    Forall (λ item, depth item ≤ n) acc →
    flatten_loop operator items acc = Ok flattened →
    Forall (λ item, depth item ≤ n) flattened.
Proof.
  induction 1 as [|item items Hitem _ IH]; intros Hitems acc flattened Hacc; simpl.
  { by intros [= <-]. }
  apply Forall_cons in Hitems as [Hdepth Hitems].
  destruct (same_operator_compound operator item) eqn:Hsame;
    intros (r & Hr & Hloop)%bind_Ok; (eapply IH; [done| |exact Hloop]);
    (apply Forall_app; split; [done|]); pose proof (Hitem _ _ Hdepth Hr) as Hle.
  - destruct item as [| |op comps]; [done..|].
    apply flatten_Compound_Ok in Hr as (fl & _ & _ & ->). simpl.
    destruct n as [|n]; [simpl in Hle; lia|].
    apply depth_Compound_le in Hle. eapply Forall_impl; [exact Hle|]. simpl; lia.
  - by apply Forall_singleton.
Qed.

Lemma flatten_depth_le c : ∀ m r, depth c ≤ m → flatten c = Ok r → depth r ≤ m.
Proof.
  induction c as [| |operator comps IH] using Condition_ind'; intros m r Hm.
  - by intros [= <-].
  - by intros [= <-].
  - intros (fl & Hloop & Hne & ->)%flatten_Compound_Ok.
    destruct m as [|m]; [simpl in Hm; lia|].
    apply depth_Compound_le in Hm. apply depth_Compound_le.
    by eapply (flatten_loop_depth m operator comps IH); [|constructor|exact Hloop].
Qed.

(** Components of a compound with the operator of the loop are
    handled as if they stood in the list themselves. *)
Lemma flatten_loop_inline operator comps :
  comps ≠ [] →
  flatten_loop operator [Compound operator comps] [] = flatten_loop operator comps [].
Proof.
  intros Hne. rewrite flatten_loop_cons. simpl same_operator_compound.
  rewrite bool_decide_eq_true_2 by done. rewrite flatten_Compound.
  destruct (flatten_loop operator comps []) as [fl| |] eqn:Hloop; simpl; [|done..].
  apply flatten_loop_length in Hloop. unfold Compound_init. simpl.
  rewrite decide_False; [done|]. destruct comps; [done|]. simpl in Hloop. lia.
Qed.

Lemma flatten_loop_app_nil operator items items' :
  flatten_loop operator (items ++ items') []
  = (before ← flatten_loop operator items [];
     (before ++.) <$> flatten_loop operator items' []).
Proof.
  rewrite flatten_loop_app.
  destruct (flatten_loop operator items []) as [before| |]; simpl; [|done..].
  apply flatten_loop_acc.
Qed.

Lemma flatten_inline operator pre comps post :
  comps ≠ [] →
  flatten (Compound operator (pre ++ Compound operator comps :: post))
  = flatten (Compound operator (pre ++ comps ++ post)).
Proof.
  intros Hne. rewrite !flatten_Compound. f_equal.
  rewrite !flatten_loop_app_nil. f_equal.
  change (Compound operator comps :: post) with ([Compound operator comps] ++ post).
  rewrite !flatten_loop_app_nil. by rewrite flatten_loop_inline.
Qed.

(** X4: flattening never makes a condition deeper. *)
Theorem flatten_depth c r :
  flatten c = Ok r → depth r ≤ depth c.
Proof. by apply flatten_depth_le. Qed.

Lemma flatten_depth_witness :
  depth (Compound CompoundOperator.AND [Expression "x"; Expression "y"])
  ≤ depth (Compound CompoundOperator.AND
             [Compound CompoundOperator.AND [Expression "x"]; Expression "y"]).
Proof. apply flatten_depth. reflexivity. Defined.



(** ** Rendering and flattening *)

(** Rendering a condition is flattening it and rendering the result. *)
Lemma to_str_flatten self c : to_str self c = flatten c ≫= to_str self.
Proof.
  destruct c as [| |operator comps]; [done..|].
  rewrite to_str_Compound.
  destruct (flatten (Compound operator comps)) as [r| |] eqn:Hr; simpl; [|done..].
  pose proof (flatten_of_single_level _ (flatten_single_level _ _ Hr)) as Hagain.
  apply flatten_Compound_Ok in Hr as (fl & _ & _ & ->).
  by rewrite to_str_Compound, Hagain.
Qed.

Lemma to_str_flatten_eq self c c' :
  flatten c = flatten c' → to_str self c = to_str self c'.
Proof. intros Heq. by rewrite (to_str_flatten self c), (to_str_flatten self c'), Heq. Qed.

(** X6: under every renderer, rendering a condition gives what
    rendering its flattened condition gives, and fails where [flatten]
    fails; so two conditions that [flatten] treats alike are rendered
    alike, and [(a & b) & c] is rendered as [a & (b & c)], likewise
    for [|]. *)
Theorem to_str_of_flattened :
  (∀ self c, to_str self c = flatten c ≫= to_str self)
  ∧ (∀ self c c', flatten c = flatten c' → to_str self c = to_str self c')
  ∧ (∀ self a b c,
       (ab ← __and__ a b; x ← __and__ ab c; to_str self x)
       = (bc ← __and__ b c; x ← __and__ a bc; to_str self x))
  ∧ (∀ self a b c,
       (ab ← __or__ a b; x ← __or__ ab c; to_str self x)
       = (bc ← __or__ b c; x ← __or__ a bc; to_str self x)).
Proof.
  split_and!; [apply to_str_flatten|apply to_str_flatten_eq|..]; intros self a b c.
  - apply (to_str_flatten_eq self
             (Compound CompoundOperator.AND
                ([] ++ Compound CompoundOperator.AND [a; b] :: [c]))
             (Compound CompoundOperator.AND
                ([a] ++ Compound CompoundOperator.AND [b; c] :: []))).
    by rewrite !flatten_inline.
  - apply (to_str_flatten_eq self
             (Compound CompoundOperator.OR
                ([] ++ Compound CompoundOperator.OR [a; b] :: [c]))
             (Compound CompoundOperator.OR
                ([a] ++ Compound CompoundOperator.OR [b; c] :: []))).
    by rewrite !flatten_inline.
Qed.

Lemma to_str_of_flattened_witness :
  to_str LdapRenderer
    (Compound CompoundOperator.AND
       [Compound CompoundOperator.AND [EQ "a" (VInt 1)]; EQ "b" (VInt 2)])
  = to_str LdapRenderer (Compound CompoundOperator.AND [EQ "a" (VInt 1); EQ "b" (VInt 2)]).
Proof. apply (proj1 (proj2 to_str_of_flattened)). reflexivity. Defined.

(** X7: [flatten] merges a [NOT] into the [NOT] above it as it merges
    an [AND] into an [AND]: [~~x] is flattened, and so rendered by
    every renderer, as [~x]; the generic renderer gives "not a" for
    [~~Expression("a")]. *)
Theorem double_negation_merged :
  (∀ x, (n ← __invert__ x; nn ← __invert__ n; flatten nn)
        = (n ← __invert__ x; flatten n))
  ∧ (∀ self x, (n ← __invert__ x; nn ← __invert__ n; to_str self nn)
               = (n ← __invert__ x; to_str self n))
  ∧ (n ← __invert__ (Expression "a"); nn ← __invert__ n; to_str GenericRenderer nn)
    = Ok "not a".
Proof.
  assert (∀ x, flatten (Compound CompoundOperator.NOT
                          ([] ++ Compound CompoundOperator.NOT [x] :: []))
               = flatten (Compound CompoundOperator.NOT [x])) as Hflat.
  { intros x. by rewrite flatten_inline. }
  split_and!; [exact Hflat| |done].
  intros self x. apply (to_str_flatten_eq self _ _ (Hflat x)).
Qed.






(** ** Fields, parentheses and constructors *)

Lemma endswith_rbrace_app field : endswith_rbrace (field +:+ "}") = true.
Proof.
  induction field as [|c field IH]; [done|].
  simpl. destruct (field +:+ "}") eqn:Happ; [by destruct field|done].
Qed.

(** X9: formatting a field twice is formatting it once, for every
    renderer. What the Airtable renderer returns starts with a left
    and ends with a right brace: a field that has both is returned as
    it is, any other one, also one with only one of the two, is put
    between braces. *)
Theorem format_field_idempotent :
  (∀ self field, format_field self (format_field self field) = format_field self field)
  ∧ (∀ field,
       startswith_lbrace (format_field AirtableRenderer field) = true
       ∧ endswith_rbrace (format_field AirtableRenderer field) = true)
  ∧ (∀ field,
       startswith_lbrace field = true → endswith_rbrace field = true →
       format_field AirtableRenderer field = field)
  ∧ (∀ field,
       startswith_lbrace field && endswith_rbrace field = false →
       format_field AirtableRenderer field = "{" +:+ field +:+ "}").
Proof.
  assert (∀ field,
            startswith_lbrace (format_field AirtableRenderer field) = true
            ∧ endswith_rbrace (format_field AirtableRenderer field) = true) as Hwrapped.
  { intros field. simpl. unfold AirtableRenderer_format_field.
    destruct (startswith_lbrace field && endswith_rbrace field) eqn:Hlr; simpl.
    - by apply andb_true_iff in Hlr.
    - split; [done|]. apply (endswith_rbrace_app (String "{" field)). }
  split_and!; [|done|..].
  - intros [] field; simpl.
    + done.
    + unfold LdapRenderer_format_field, Renderer_format_field.
      destruct (decide (field = "memberOf")) as [->|Hne];
        [by rewrite decide_False by discriminate|by rewrite decide_False].
    + destruct (Hwrapped field) as [Hl Hr]. simpl in Hl, Hr.
      unfold AirtableRenderer_format_field at 1. by rewrite Hl, Hr.
  - intros field Hl Hr. simpl. unfold AirtableRenderer_format_field. by rewrite Hl, Hr.
  - intros field Hlr. simpl. unfold AirtableRenderer_format_field. by rewrite Hlr.
Qed.

Lemma format_field_idempotent_witness :
  format_field AirtableRenderer "{Date Field}" = "{Date Field}"
  ∧ format_field AirtableRenderer "{half" = "{" +:+ "{half" +:+ "}".
Proof.
  split.
  - apply (proj1 (proj2 (proj2 format_field_idempotent))); reflexivity.
  - apply (proj2 (proj2 (proj2 format_field_idempotent))); reflexivity.
Defined.

Lemma app_string_assoc (s1 s2 s3 : string) : (s1 +:+ s2) +:+ s3 = s1 +:+ (s2 +:+ s3).
Proof.
  induction s1 as [|c s1 IH]; [done|].
  change (String c ((s1 +:+ s2) +:+ s3) = String c (s1 +:+ (s2 +:+ s3))). by f_equal.
Qed.

Lemma ldap_comparison_parenthesised cls field value s :
  render_comparison LdapRenderer cls field value = Ok s →
  ∃ body, s = "(" +:+ body +:+ ")".
Proof.
  simpl. unfold LdapRenderer_render_comparison, Renderer_render_comparison.
  destruct value; simpl; intros [= <-]; try (by eexists).
  exists ("!" +:+ field +:+ "=*").
  change (String "(" (String "!" (field +:+ ("=*" +:+ ")")))
          = String "(" (String "!" ((field +:+ "=*") +:+ ")"))).
  by rewrite app_string_assoc.
Qed.

(** X10: whatever the LDAP renderer returns for a comparison or a
    compound is a filter in parentheses. (An [Expression] is returned
    as its text.) *)
Theorem ldap_parenthesised c s :
  (∀ value, c ≠ Expression value) →
  to_str LdapRenderer c = Ok s →
  ∃ body, s = "(" +:+ body +:+ ")".
Proof.
  intros Hc. destruct c as [value|cls field value|operator comps].
  - by destruct (Hc value).
  - destruct (decide (cls = ComparisonType.NE)) as [->|Hcls].
    + rewrite to_str_LdapRenderer_NE, to_str_Compound. simpl.
      intros (strs & _ & [= <-])%bind_Ok. by eexists (String _ _).
    + assert (to_str LdapRenderer (Comparison cls field value)
              = render_comparison LdapRenderer cls field value) as -> by by destruct cls.
      apply ldap_comparison_parenthesised.
  - rewrite to_str_Compound. intros (r & Hr & Hs)%bind_Ok.
    apply flatten_Compound_Ok in Hr as (fl & _ & _ & ->). simpl in Hs.
    destruct operator; simpl in Hs; apply bind_Ok in Hs as (strs & _ & [= <-]);
      by eexists (String _ _).
Qed.

Lemma ldap_parenthesised_witness :
  ∃ body, "(&(!(uid=1))(!mail=*))" = "(" +:+ body +:+ ")".
Proof.
  apply (ldap_parenthesised
           (Compound CompoundOperator.AND [NE "uid" (VInt 1); GT "mail" VNone])).
  - discriminate.
  - reflexivity.
Defined.

(** X11: a keyword argument of [AND], [OR] and [NOT] stands for the
    [EQ] comparison of its name and value, placed after the positional
    components (in [NOT], as the only component); [AND] and [OR]
    return the compound of all of them as soon as there is one. *)
Theorem keyword_arguments_are_EQ :
  (∀ comps fields, AND comps fields = AND (comps ++ fields_items fields) [])
  ∧ (∀ comps fields, OR comps fields = OR (comps ++ fields_items fields) [])
  ∧ (∀ field value, NOT [] [(field, value)] = NOT [Some (EQ field value)] [])
  ∧ (∀ comps fields,
       comps ≠ [] ∨ fields ≠ [] →
       AND comps fields
       = Ok (Compound CompoundOperator.AND (comps ++ fields_items fields))
       ∧ OR comps fields
         = Ok (Compound CompoundOperator.OR (comps ++ fields_items fields))).
Proof.
  assert (∀ comps fields,
            (if decide (fields = []) then comps else comps ++ fields_items fields)
            = comps ++ fields_items fields) as Hitems.
  { intros comps fields. case_decide as Hfields; [|done].
    rewrite Hfields. simpl. by rewrite app_nil_r. }
  split_and!.
  - intros comps fields. unfold AND. by rewrite Hitems.
  - intros comps fields. unfold OR. by rewrite Hitems.
  - done.
  - intros comps fields Hne. unfold AND, OR, Compound_init. rewrite Hitems. simpl.
    assert (length (comps ++ fields_items fields) ≠ 0) as Hlen.
    { unfold fields_items. rewrite length_app, length_map.
      destruct Hne as [Hne|Hne]; [destruct comps|destruct fields]; simpl; try done; lia. }
    by rewrite !decide_False.
Qed.

Lemma keyword_arguments_are_EQ_witness :
  AND [Expression "a"] [("baz", VInt 3)]
  = Ok (Compound CompoundOperator.AND ([Expression "a"] ++ fields_items [("baz", VInt 3)]))
  ∧ OR [Expression "a"] [("baz", VInt 3)]
    = Ok (Compound CompoundOperator.OR ([Expression "a"] ++ fields_items [("baz", VInt 3)])).
Proof.
  apply (proj2 (proj2 (proj2 keyword_arguments_are_EQ))). by left.
Defined.

(** X12: [Compound.__init__] takes the operator by its name as by
    the member itself; the names are exactly "AND", "OR" and "NOT",
    and any other string, whatever the components, raises the
    [KeyError] of the lookup. *)
Theorem Compound_init_by_name :
  (∀ operator comps,
     Compound_init (inr (operator_name operator)) comps = Compound_init (inl operator) comps)
  ∧ (∀ name comps,
       (∀ operator, name ≠ operator_name operator) →
       Compound_init (inr name) comps = Raise (KeyError name))
  ∧ (∀ name operator,
       CompoundOperator.getitem name = Ok operator ↔ name = operator_name operator).
Proof.
  split_and!.
  - by intros [] comps.
  - intros name comps Hname. unfold Compound_init, CompoundOperator.getitem.
    pose proof (Hname CompoundOperator.AND). pose proof (Hname CompoundOperator.OR).
    pose proof (Hname CompoundOperator.NOT). simpl in *.
    by rewrite !decide_False.
  - intros name operator. unfold CompoundOperator.getitem.
    repeat case_decide; destruct operator; naive_solver.
Qed.

Lemma Compound_init_by_name_witness :
  Compound_init (inr "and") [Expression "a"] = Raise (KeyError "and").
Proof.
  apply (proj1 (proj2 Compound_init_by_name)). by intros [].
Defined.

(** X13: [NOT] returns exactly when it is given one component: one
    positional argument and no keyword argument, or one keyword
    argument and no positional argument (or [None] in its place);
    what it returns is the [NOT] compound of that component. [~x]
    always returns, and is [NOT(x)]. *)
Theorem NOT_succeeds_iff :
  (∀ args fields r,
     NOT args fields = Ok r
     ↔ (∃ c, args = [Some c] ∧ fields = [] ∧ r = Compound CompoundOperator.NOT [c])
       ∨ (∃ field value,
            (args = [] ∨ args = [None]) ∧ fields = [(field, value)]
            ∧ r = Compound CompoundOperator.NOT [EQ field value]))
  ∧ (∀ x, __invert__ x = Ok (Compound CompoundOperator.NOT [x]))
  ∧ (∀ x, __invert__ x = NOT [Some x] []).
Proof.
  split_and!; [|done..].
  intros args fields r. split.
  - destruct args as [|[c|] [|? args]], fields as [|[field value] [|? fields]];
      try (intros [=]; fail); intros [= <-]; eauto 10.
  - intros [(c & -> & -> & ->)|(field & value & [->| ->] & -> & ->)]; done.
Qed.

Lemma NOT_succeeds_iff_witness :
  NOT [None] [("foo", VInt 1)] = Ok (Compound CompoundOperator.NOT [EQ "foo" (VInt 1)]).
Proof.
  apply (proj1 NOT_succeeds_iff). right. exists "foo", (VInt 1).
  split; [by right|]. split; reflexivity.
Defined.

(** ** [flatten] on the object store *)

Lemma unfolds_closed h h' :
  closed h → h `prefix_of` h' →
  ∀ t i, i < length h → Heap.unfolds h' i t → Heap.unfolds h i t.
Proof.
  intros Hclosed Hprefix.
  assert (∀ i o, i < length h → h' !! i = Some o → h !! i = Some o) as Hold.
  { intros i o Hi Ho. destruct (lookup_lt_is_Some_2 h i Hi) as [o' Ho'].
    by rewrite (prefix_lookup_Some _ _ _ _ Ho' Hprefix) in Ho; simplify_eq. }
  induction t as [| |operator ts IH] using Condition_ind'; intros i Hi Ht;
    inversion Ht as [| |? ? comps ? Hlookup Hcomps]; subst.
  - constructor. by apply Hold.
  - constructor. by apply Hold.
  - apply Hold in Hlookup; [|done]. econstructor; [done|].
    pose proof (Hclosed _ _ _ Hlookup) as Hbound. clear Ht Hlookup.
    induction Hcomps as [|c t comps ts Hc _ IHcomps]; [constructor|].
    apply Forall_cons in IH as [Ht IH]. apply Forall_cons in Hbound as [Hc_lt Hbound].
    constructor; auto.
Qed.

(** X14: on a store whose compounds only have components of the
    store, a call of [flatten] on the store that returns has worked on
    an object that is a tree when unfolded, has only added objects to
    the store, and returns an object that unfolds to what [flatten]
    gives for that tree. *)
Theorem heap_flatten_sound fuel h memo self h' memo' r :
  closed h →
  Heap.flatten fuel h memo self = Ok (h', memo', r) →
  h `prefix_of` h'
  ∧ ∃ t t', Heap.unfolds h self t ∧ flatten t = Ok t' ∧ Heap.unfolds h' r t'.
Proof.
  intros Hclosed Hcall.
  destruct (heap_flatten_refines _ _ _ _ _ _ _ Hcall) as (Hprefix & t & t' & Ht & Hflat & Hr).
  split; [done|]. exists t, t'. split_and!; [|done..].
  eapply unfolds_closed; [done..| |done].
  destruct fuel as [|fuel]; [done|]. rewrite heap_flatten_S in Hcall.
  destruct (h !! self) eqn:Hself; [|done]. by eapply lookup_lt_Some.
Qed.

Lemma heap_flatten_sound_witness :
  [Heap.OExpression "x"; Heap.OCompound CompoundOperator.AND [0]]
    `prefix_of` [Heap.OExpression "x"; Heap.OCompound CompoundOperator.AND [0];
                 Heap.OCompound CompoundOperator.AND [0]]
  ∧ ∃ t t',
      Heap.unfolds [Heap.OExpression "x"; Heap.OCompound CompoundOperator.AND [0]] 1 t
      ∧ flatten t = Ok t'
      ∧ Heap.unfolds [Heap.OExpression "x"; Heap.OCompound CompoundOperator.AND [0];
                      Heap.OCompound CompoundOperator.AND [0]] 2 t'.
Proof.
  apply (heap_flatten_sound 2 _ ∅ 1 _ ({[1]} ∪ ∅)).
  - intros [|[|i]] operator comps Hi; simplify_eq/=. repeat constructor.
  - vm_compute. reflexivity.
Defined.

Lemma includes_mono h h' i j :
  h `prefix_of` h' → Heap.includes h i j → Heap.includes h' i j.
Proof.
  intros Hprefix. unfold Heap.includes.
  induction 1 as [x y (op & comps & Hx & Hy)|x y z (op & comps & Hx & Hy) _ IH].
  - apply tc_once. exists op, comps. split; [by eapply prefix_lookup_Some|done].
  - eapply tc_l; [|exact IH]. exists op, comps.
    split; [by eapply prefix_lookup_Some|done].
Qed.

Lemma unfolds_includes h i j :
  Heap.includes h i j →
  ∀ t, Heap.unfolds h i t → ∃ t', Heap.unfolds h j t' ∧ depth t' < depth t.
Proof.
  assert (∀ i j, (∃ operator comps, h !! i = Some (Heap.OCompound operator comps) ∧ j ∈ comps) →
            ∀ t, Heap.unfolds h i t → ∃ t', Heap.unfolds h j t' ∧ depth t' < depth t) as Hstep.
  { clear i j. intros i j (op & comps & Hi & Hj) t Ht.
    inversion Ht as [| |? ? comps' ts Hlookup Hcomps]; simplify_eq.
    clear Ht Hi. induction Hcomps as [|c t comps ts Hc _ IH]; [by apply elem_of_nil in Hj|].
    apply elem_of_cons in Hj as [->|Hj].
    - exists t. split; [done|]. simpl. lia.
    - destruct (IH Hj) as (t' & Ht' & Hlt). exists t'. split; [done|]. simpl in *. lia. }
  induction 1 as [i j Hij|i k j Hik _ IH]; intros t Ht; [by eapply Hstep|].
  destruct (Hstep _ _ Hik _ Ht) as (tk & Htk & Hlt).
  destruct (IH _ Htk) as (tj & Htj & Hlt'). exists tj. split; [done|lia].
Qed.

(** X15: [flatten] returns for no object that is a component of
    itself, directly or through other compounds: not with any store,
    any set of visited objects and any number of nested calls. *)
Theorem heap_flatten_cyclic_never_returns fuel h memo self :
  Heap.includes h self self →
  ∀ h' memo' r, Heap.flatten fuel h memo self ≠ Ok (h', memo', r).
Proof.
  intros Hcycle h' memo' r Hcall.
  destruct (heap_flatten_refines _ _ _ _ _ _ _ Hcall) as (Hprefix & t & _ & Ht & _).
  destruct (unfolds_includes _ _ _ (includes_mono _ _ _ _ Hprefix Hcycle) _ Ht)
    as (t' & Ht' & Hlt).
  rewrite (unfolds_functional _ _ _ _ Ht' Ht) in Hlt. lia.
Qed.

Lemma heap_flatten_cyclic_never_returns_witness :
  Heap.includes [Heap.OExpression "x"; Heap.OCompound CompoundOperator.NOT [1]] 1 1
  ∧ ∀ h' memo' r,
      Heap.flatten 7 [Heap.OExpression "x"; Heap.OCompound CompoundOperator.NOT [1]] ∅ 1
      ≠ Ok (h', memo', r).
Proof.
  assert (Heap.includes [Heap.OExpression "x"; Heap.OCompound CompoundOperator.NOT [1]] 1 1)
    as Hcycle.
  { apply tc_once. exists CompoundOperator.NOT, [1]. split; [reflexivity|by left]. }
  split; [exact Hcycle|].
  exact (heap_flatten_cyclic_never_returns 7 _ ∅ 1 Hcycle).
Defined.

(** X16: on an object that unfolds to a tree in which no compound
    object occurs twice, a call of [flatten] on the store with no set
    of visited objects does what [flatten] does on the tree, once it
    is allowed as many nested calls as the tree needs: it returns an
    object that unfolds to the flattened tree, or raises the
    [ValueError] of an empty compound; it never raises
    [CircularDependency]. *)
Theorem heap_flatten_on_trees h i t ids :
  Heap.covers h i t ids → NoDup ids →
  ∃ fuel0, ∀ fuel, fuel0 ≤ fuel →
    match flatten t with
    | Ok t' =>
        ∃ h' memo' r,
          Heap.flatten fuel h ∅ i = Ok (h', memo', r)
          ∧ h `prefix_of` h' ∧ Heap.unfolds h' r t'
    | Raise e => Heap.flatten fuel h ∅ i = Raise e ∧ e = no_condition
    | OutOfFuel => False
    end.
Proof.
  intros Hi Hnodup. exists (rank t). intros fuel Hfuel.
  opose proof* (heap_flatten_tree t fuel h i ids ∅ Hi Hnodup) as Hcall; [| |done|].
  { by intros ? ? ?%not_elem_of_empty. }
  { by intros ? ?%not_elem_of_empty. }
  unfold flattens_as in Hcall. destruct (flatten t) as [t'|e|] eqn:Hflat; [| |done].
  - destruct Hcall as (h' & memo' & r & ? & ? & ? & _). eauto 10.
  - split; [done|]. by eapply flatten_Raise.
Qed.

Lemma heap_flatten_on_trees_witness :
  ∃ fuel0, ∀ fuel, fuel0 ≤ fuel →
    match flatten (Compound CompoundOperator.AND [Expression "x"]) with
    | Ok t' =>
        ∃ h' memo' r,
          Heap.flatten fuel
            [Heap.OExpression "x"; Heap.OCompound CompoundOperator.AND [0]] ∅ 1
          = Ok (h', memo', r)
          ∧ [Heap.OExpression "x"; Heap.OCompound CompoundOperator.AND [0]] `prefix_of` h'
          ∧ Heap.unfolds h' r t'
    | Raise e =>
        Heap.flatten fuel
          [Heap.OExpression "x"; Heap.OCompound CompoundOperator.AND [0]] ∅ 1
        = Raise e
        ∧ e = no_condition
    | OutOfFuel => False
    end.
Proof.
  apply (heap_flatten_on_trees _ 1 _ (1 :: concat [[]])).
  - econstructor; [reflexivity|]. repeat constructor.
  - simpl. apply NoDup_singleton.
Defined.

(** X17: what [flatten] returns on the store shares no compound
    with its argument: every compound below the result is an object
    allocated by the call, and none is used twice. Called on a
    compound it returns a new object, never the compound itself;
    called on a comparison or an expression it returns that object
    and leaves the store as it is. *)
Theorem heap_flatten_returns_new_objects fuel h memo self h' memo' r :
  Heap.flatten fuel h memo self = Ok (h', memo', r) →
  (∃ t' ids, Heap.covers h' r t' ids ∧ NoDup ids ∧ Forall (λ x, length h ≤ x < length h') ids)
  ∧ match h !! self with
    | Some (Heap.OCompound _ _) => length h ≤ r < length h' ∧ r ≠ self
    | _ => r = self ∧ h' = h
    end.
Proof.
  intros Hcall.
  destruct (heap_flatten_returns_new_tree _ _ _ _ _ _ _ Hcall)
    as (Hprefix & t' & idss & Hcover & Hnodup & Hbounds).
  inversion Hcover as [|? ? ids ? ? ? Hcover' Hnil]; subst. inversion Hnil; subst.
  simpl in Hnodup, Hbounds. rewrite app_nil_r in Hnodup, Hbounds.
  split; [by eauto|].
  destruct fuel as [|fuel]; [done|]. rewrite heap_flatten_S in Hcall.
  destruct (h !! self) as [[| |operator comps]|] eqn:Hself; [by simplify_eq..| |done].
  apply bind_Ok in Hcall as ([[h1 memo1] fl] & Hloop & Hinit).
  unfold Heap.Compound_init, Heap.alloc in Hinit. case_decide; [done|].
  simpl in Hinit. injection Hinit as <- <- <-.
  inversion Hcover' as [| |? ? ? ? ? Hlookup _]; subst;
    [rewrite lookup_app_r, Nat.sub_diag in H0 by done; by simplify_eq/=..|].
  apply Forall_cons in Hbounds as [Hr _]. split; [done|].
  apply lookup_lt_Some in Hself. lia.
Qed.

Lemma heap_flatten_returns_new_objects_witness :
  (∃ t' ids,
     Heap.covers [Heap.OExpression "x"; Heap.OCompound CompoundOperator.AND [0];
                  Heap.OCompound CompoundOperator.AND [0]] 2 t' ids
     ∧ NoDup ids ∧ Forall (λ x, 2 ≤ x < 3) ids)
  ∧ (2 ≤ 2 < 3 ∧ 2 ≠ 1).
Proof.
  exact (heap_flatten_returns_new_objects
           2 [Heap.OExpression "x"; Heap.OCompound CompoundOperator.AND [0]] ∅ 1
           [Heap.OExpression "x"; Heap.OCompound CompoundOperator.AND [0];
            Heap.OCompound CompoundOperator.AND [0]]
           ({[1]} ∪ ∅) 2 eq_refl).
Defined.
